(** * Shared-state container ([src/_hooks/libs/state.utils.ts])

    A shallow embedding of [createSharedState]: the value box, its observer
    list, the equality checks [is] and [shallowEqual], and the [usePick]
    binding, over a small model of the JavaScript values the code handles. *)

From Stdlib Require Import ZArith Bool.
From Stdlib Require Import Floats.SpecFloat.
From stdpp Require Import base option list gmap strings pretty.


(** ** JavaScript values *)

(** Numbers are IEEE 754 doubles: [spec_float] at precision 53 and maximal
    exponent 1024.  There is one NaN, two zeros and two infinities. *)
Abbreviation number := spec_float.

Definition prec : Z := 53%Z.
Definition emax : Z := 1024%Z.

Definition num_pzero : number := S754_zero false.
Definition num_nzero : number := S754_zero true.
Definition num_nan : number := S754_nan.
Definition num_one : number := SFone prec emax.

(** A small integer as a double, for examples. *)
Definition num_of_Z (z : Z) : number := binary_normalize prec emax z 0%Z false.

(** Object and function references are addresses into the two heaps of
    [world] below; two references are the same object exactly when the
    addresses are equal. *)
Definition addr := nat.
Definition fref := nat.

(** Strings are sequences of UTF-16 code units (numbers below 65536). *)
Definition code_unit := N.

Inductive value : Type :=
  | VUndefined
  | VNull
  | VBool (b : bool)
  | VNum (x : number)
  | VStr (s : list code_unit)
  | VObj (a : addr)
  | VFun (f : fref).

(** Own enumerable string-keyed properties of a plain object. *)
Abbreviation obj := (gmap string value).

Inductive jstype : Type :=
  | TUndefined | TObject | TBoolean | TNumber | TString | TFunction.

(** The [typeof] operator ([typeof null] is ['object']). *)
Definition typeof (v : value) : jstype :=
  match v with
  | VUndefined => TUndefined
  | VNull => TObject
  | VBool _ => TBoolean
  | VNum _ => TNumber
  | VStr _ => TString
  | VObj _ => TObject
  | VFun _ => TFunction
  end.

Definition jstype_eqb (s t : jstype) : bool :=
  match s, t with
  | TUndefined, TUndefined | TObject, TObject | TBoolean, TBoolean
  | TNumber, TNumber | TString, TString | TFunction, TFunction => true
  | _, _ => false
  end.

(** Strict equality [x === y]: same type, numbers by IEEE comparison (NaN
    differs from itself, the two zeros are equal), references by address. *)
Definition strict_eq (x y : value) : bool :=
  match x, y with
  | VUndefined, VUndefined => true
  | VNull, VNull => true
  | VBool a, VBool b => Bool.eqb a b
  | VNum a, VNum b => SFeqb a b
  | VStr a, VStr b => bool_decide (a = b)
  | VObj a, VObj b => Nat.eqb a b
  | VFun a, VFun b => Nat.eqb a b
  | _, _ => false
  end.

Definition strict_neq (x y : value) : bool := negb (strict_eq x y).

(** [1 / x].  In [is_] the quotient is evaluated only under [x === y] and
    [x === 0], that is on numbers (lemma [is_divides_numbers_only]); the
    coercion of the other types to a number is not part of the model, and
    the quotient is NaN there. *)
Definition js_div (x y : value) : value :=
  match x, y with
  | VNum a, VNum b => VNum (SFdiv prec emax a b)
  | _, _ => VNum num_nan
  end.

(** [is], lines 16-18 ([is] is a reserved word here, hence [is_]):
    [(x === y && (x !== 0 || 1 / x === 1 / y)) || (x !== x && y !== y)]. *)
Definition is_ (x y : value) : bool :=
  (strict_eq x y
   && (strict_neq x (VNum num_pzero)
       || strict_eq (js_div (VNum num_one) x) (js_div (VNum num_one) y)))
  || (strict_neq x x && strict_neq y y).

#[global] Instance spec_float_eq_dec : EqDecision spec_float.
Proof. solve_decision. Defined.

#[global] Instance value_eq_dec : EqDecision value.
Proof. solve_decision. Defined.

(** SameValue, in the glossary's words: identity or primitive equality that
    keeps the two zeros apart and makes NaN equal to itself.  On this value
    type that is equality of the values. *)
Definition SameValue (x y : value) : Prop := x = y.

(** The host's [Object.is]: ECMAScript defines it as SameValue. *)
Definition Object_is (x y : value) : bool := bool_decide (SameValue x y).

(** [objectIs], line 20: the host's [Object.is] when it has one, otherwise
    the inlined [is]. *)
Definition objectIs (native : bool) : value -> value -> bool :=
  if native then Object_is else is_.

(** ** Objects *)

(** The code units of a string as its index properties ["0"], ["1"], ...,
    each a string of one code unit.  (Property names are kept as Rocq
    strings; they are only compared with each other.) *)
Definition string_props (s : list code_unit) : obj :=
  list_to_map (imap (fun (i : nat) (c : code_unit) => (pretty i, VStr [c])) s).

(** The own enumerable properties that an object spread [{...v}] copies and
    that [Object.keys] lists: those of the object behind a reference, the
    index code units of a string, none for [undefined], [null], booleans,
    numbers and functions. *)
Definition own_props (os : list obj) (v : value) : obj :=
  match v with
  | VObj a => default ∅ (os !! a)
  | VStr s => string_props s
  | _ => ∅
  end.

Definition Object_keys (os : list obj) (v : value) : list string :=
  (map_to_list (own_props os v)).*1.

Definition hasOwnProperty (os : list obj) (v : value) (k : string) : bool :=
  bool_decide (is_Some (own_props os v !! k)).

(** Property read [v[k]] of an own property; [undefined] when absent. *)
Definition get_prop (os : list obj) (v : value) (k : string) : value :=
  default VUndefined (own_props os v !! k).

(** [{...pre, ...input}]: the properties of [pre], overwritten and extended
    by those of [input]. *)
Definition spread (os : list obj) (pre input : value) : obj :=
  own_props os input ∪ own_props os pre.

(** [shallowEqual], lines 28-60.  The loop with its early [return false] is
    a [forallb] over [keysA]. *)
Definition shallowEqual (os : list obj) (objA objB : value) : bool :=
  if is_ objA objB then true
  else if negb (jstype_eqb (typeof objA) TObject)
          || strict_eq objA VNull
          || negb (jstype_eqb (typeof objB) TObject)
          || strict_eq objB VNull
  then false
  else
    let keysA := Object_keys os objA in
    let keysB := Object_keys os objB in
    if negb (Nat.eqb (length keysA) (length keysB)) then false
    else
      forallb
        (fun k => negb (negb (hasOwnProperty os objB k)
                        || negb (is_ (get_prop os objA k) (get_prop os objB k))))
        keysA.

(** ** Functions, the container and its environment *)

(** What a function supplied by the application may do to the container
    while it runs. *)
Inductive action : Type :=
  | ASet (next : value)
  | AUpdate (input : value)
  | ASubscribe (subscriber : fref)
  | AUnsubscribe (subscriber : fref)
  | ACall (f : fref) (args : list value).

(** A function supplied by the application (an observer, an updater, a
    picker): called with [args] it first performs [effects args] on the
    container, then returns the second component of [result os args],
    where [os] is the object heap at that point and the first component
    lists the objects it allocates (placed at the end of the heap). *)
Record ufun : Type := UFun {
  effects : list value -> list action;
  result : list obj -> list value -> list obj * value;
}.

(** Function objects: the application's, and the three arrow functions the
    module itself creates. *)
Inductive closure : Type :=
  | User (u : ufun)
  | UnsubArrow (subscriber : fref)   (* line 96: () => unsubscribe(subscriber) *)
  | MergeArrow (input : value)       (* lines 177-180: (pre) => ({...pre, ...input}) *)
  | PickSub (i : nat).               (* lines 152-159: sub of the usePick binding i *)

(** The slots of one [usePick] call site in one mounted component. *)
Record binding : Type := Binding {
  ref_picker : fref;          (* ref.current.picker *)
  ref_oldState : value;       (* ref.current.oldState *)
  pickedState : value;        (* the useState slot as of the last render *)
  queue : list value;         (* values passed to setPickedState since then;
                                 non-empty: a re-render is scheduled *)
  sub : fref;                 (* the memoised sub *)
  un : option fref;           (* cleanup of the subscribing effect *)
}.

(** The value of the state slot: the last queued update, or the rendered
    value when nothing is queued.  It is what the next render gets. *)
Definition slot_value (b : binding) : value :=
  default (pickedState b) (last (queue b)).

(** What the log records: an assignment to [state], and an invocation of
    an observer with its two arguments. *)
Inductive event : Type :=
  | Stored (v : value)
  | Notified (cb : fref) (prevState nextState : value).

(** The container ([state], [subscribers]: the two variables captured by
    the closures of [createSharedState]) together with the heaps its values
    and functions live in, the [usePick] bindings, and the log of what
    happened to the container. *)
Record world : Type := World {
  state : value;
  subscribers : list fref;
  objs : list obj;
  funs : list closure;
  hooks : list binding;
  log : list event;
}.

Definition with_subscribers (l : list fref) (w : world) : world :=
  World (state w) l (objs w) (funs w) (hooks w) (log w).
Definition with_hooks (hs : list binding) (w : world) : world :=
  World (state w) (subscribers w) (objs w) (funs w) hs (log w).
Definition with_log (l : list event) (w : world) : world :=
  World (state w) (subscribers w) (objs w) (funs w) (hooks w) l.

(** The assignment [state = v] of line 116, recorded in the log. *)
Definition store (v : value) (w : world) : world :=
  World v (subscribers w) (objs w) (funs w) (hooks w) (log w ++ [Stored v]).

(** Allocation at the end of a heap. *)
Definition alloc_objs (new : list obj) (w : world) : world :=
  World (state w) (subscribers w) (objs w ++ new) (funs w) (hooks w) (log w).
Definition alloc_fun (c : closure) (w : world) : fref * world :=
  (length (funs w),
   World (state w) (subscribers w) (objs w) (funs w ++ [c]) (hooks w) (log w)).

(** How a call ends: normally, with the host's TypeError for calling what
    is not a function ([Fault]), or not within the given depth of nested
    calls ([Timeout]). *)
Inductive outcome (A : Type) : Type :=
  | Done (a : A)
  | Fault
  | Timeout.
Arguments Done {A} a.
Arguments Fault {A}.
Arguments Timeout {A}.

#[global] Instance outcome_ret : MRet outcome := fun A a => Done a.
#[global] Instance outcome_bind : MBind outcome := fun A B k m =>
  match m with
  | Done a => k a
  | Fault => Fault
  | Timeout => Timeout
  end.

(** [Array.prototype.indexOf] on the observer list: the first index holding
    the reference, [-1] when there is none. *)
Fixpoint indexOf (l : list fref) (x : fref) : Z :=
  match l with
  | [] => (-1)%Z
  | y :: l' =>
      if Nat.eqb y x then 0%Z
      else let i := indexOf l' x in if (i =? -1)%Z then (-1)%Z else (i + 1)%Z
  end.

(** [Array.prototype.splice(start, deleteCount)] without inserted items. *)
Definition splice (l : list fref) (start deleteCount : Z) : list fref :=
  let len := Z.of_nat (length l) in
  let actualStart :=
    if (start <? 0)%Z then Z.max (len + start) 0 else Z.min start len in
  let actualDeleteCount := Z.min (Z.max deleteCount 0) (len - actualStart) in
  take (Z.to_nat actualStart) l
  ++ drop (Z.to_nat (actualStart + actualDeleteCount)) l.

(** [get], line 106. *)
Definition get (w : world) : value := state w.

(** [unsubscribe], lines 100-103. *)
Definition unsubscribe (subscriber : fref) (w : world) : world :=
  let index := indexOf (subscribers w) subscriber in
  if (index >? -1)%Z then with_subscribers (splice (subscribers w) index 1) w
  else w.

(** [subscribe], lines 94-97: returns the new arrow function. *)
Definition subscribe (subscriber : fref) (w : world) : fref * world :=
  alloc_fun (UnsubArrow subscriber)
            (with_subscribers (subscribers w ++ [subscriber]) w).

(** [setPickedState(() => pickedNew)] on binding [i]. *)
Definition setPickedState (i : nat) (pickedNew : value) (w : world) : world :=
  with_hooks
    (alter (fun b => Binding (ref_picker b) (ref_oldState b) (pickedState b)
                             (queue b ++ [pickedNew]) (sub b) (un b))
           i (hooks w))
    w.

Section Operations.

(** Whether the host has [Object.is] (line 20). *)
Variable native : bool.

(** The nested calls that application functions make: the operations
    below, one level of nesting deeper. *)
Variable rec : action -> world -> outcome (value * world).

Fixpoint run (l : list action) (w : world) : outcome world :=
  match l with
  | [] => Done w
  | a :: l' => '(_, w') ← rec a w; run l' w'
  end.

(** [sub], lines 152-159.  The picker is called through [rec]: [call]
    below has [sub] among the functions it runs. *)
Definition sub_body (i : nat) (w : world) : outcome (value * world) :=
  match hooks w !! i with
  | None => Fault
  | Some b =>
      let pickedOld := ref_oldState b in
      '(pickedNew, w1) ← rec (ACall (ref_picker b) [state w]) w;
      if negb (shallowEqual (objs w1) pickedOld pickedNew)
      then Done (VUndefined, setPickedState i pickedNew w1)
      else Done (VUndefined, w1)
  end.

(** A call [f(args)]. *)
Definition call (f : fref) (args : list value) (w : world)
  : outcome (value * world) :=
  match funs w !! f with
  | None => Fault
  | Some (User u) =>
      w1 ← run (effects u args) w;
      let '(new, v) := result u (objs w1) args in
      Done (v, alloc_objs new w1)
  | Some (UnsubArrow subscriber) =>
      Done (VUndefined, unsubscribe subscriber w)
  | Some (MergeArrow input) =>
      let pre := nth 0 args VUndefined in
      Done (VObj (length (objs w)),
            alloc_objs [spread (objs w) pre input] w)
  | Some (PickSub i) => sub_body i w
  end.

(** [Array.prototype.forEach] on the live observer list: the length is
    read once, and each index below it is visited if the list still has
    it at that moment. *)
Fixpoint forEach_from (callbackfn : fref -> world -> outcome world)
         (n k : nat) (w : world) : outcome world :=
  match n with
  | O => Done w
  | S n' =>
      match subscribers w !! k with
      | None => forEach_from callbackfn n' (S k) w
      | Some cb => w' ← callbackfn cb w; forEach_from callbackfn n' (S k) w'
      end
  end.

Definition forEach (callbackfn : fref -> world -> outcome world) (w : world)
  : outcome world :=
  forEach_from callbackfn (length (subscribers w)) 0 w.

(** The callback of line 117, [(cb) => cb(prevState, state)]; [state] is
    the container's variable, read when the callback runs.  The
    invocation is recorded in the log. *)
Definition notify (prevState : value) (cb : fref) (w : world) : outcome world :=
  '(_, w') ← call cb [prevState; state w]
                  (with_log (log w ++ [Notified cb prevState (state w)]) w);
  Done w'.

(** [set], lines 109-118. *)
Definition set (next : value) (w : world) : outcome world :=
  let prevState := state w in
  '(nextState, w1) ←
    match next with
    | VFun f => call f [prevState] w       (* typeof next === 'function' *)
    | _ => Done (next, w)
    end;
  if objectIs native (state w1) nextState then Done w1
  else forEach (notify prevState) (store nextState w1).

(** [update], lines 176-181. *)
Definition update (input : value) (w : world) : outcome world :=
  let '(arrow, w1) := alloc_fun (MergeArrow input) w in
  set (VFun arrow) w1.

(** The body of [usePick], lines 141-171, as one render of a component:
    [inst = None] is the first render of a new component instance,
    [inst = Some i] a later render of instance [i].  The host keeps the
    ref, the state slot and the memoised [sub] between renders, runs the
    initialiser of [useState] on the first render only, and on later
    renders applies the queued updates of the slot in order.  Returns
    the instance and [pickedState]. *)
Definition usePick (inst : option nat) (picker : fref) (w : world)
  : outcome (nat * value * world) :=
  match inst with
  | None =>
      '(init, w1) ← call picker [state w] w;
      let '(subf, w2) := alloc_fun (PickSub (length (hooks w1))) w1 in
      Done (length (hooks w1), init,
            with_hooks (hooks w2 ++ [Binding picker init init [] subf None]) w2)
  | Some i =>
      match hooks w !! i with
      | None => Fault
      | Some b =>
          let pickedState' := slot_value b in
          Done (i, pickedState',
                with_hooks
                  (<[i := Binding picker pickedState' pickedState' [] (sub b) (un b)]>
                     (hooks w))
                  w)
      end
  end.

(** The effects of lines 161-168, which the host runs once a render is
    committed: both after the first render ([mount]), afterwards the
    second one when the host finds that [deps] changed. *)
Definition usePick_effects (i : nat) (mount deps_changed : bool) (w : world)
  : outcome world :=
  match hooks w !! i with
  | None => Fault
  | Some b =>
      let w1 :=
        if mount then
          let '(unf, w') := subscribe (sub b) w in
          with_hooks
            (<[i := Binding (ref_picker b) (ref_oldState b) (pickedState b)
                            (queue b) (sub b) (Some unf)]> (hooks w'))
            w'
        else w in
      if mount || deps_changed
      then '(_, w2) ← call (sub b) [] w1; Done w2
      else Done w1
  end.

(** One operation of the handle returned by [createSharedState], as an
    application function invokes it. *)
Definition step (a : action) (w : world) : outcome (value * world) :=
  match a with
  | ASet next => w' ← set next w; Done (VUndefined, w')
  | AUpdate input => w' ← update input w; Done (VUndefined, w')
  | ASubscribe subscriber =>
      let '(unf, w') := subscribe subscriber w in Done (VFun unf, w')
  | AUnsubscribe subscriber => Done (VUndefined, unsubscribe subscriber w)
  | ACall f args => call f args w
  end.

End Operations.

(** Nested calls up to depth [fuel]. *)
Fixpoint exec (native : bool) (fuel : nat) : action -> world -> outcome (value * world) :=
  match fuel with
  | O => fun _ _ => Timeout
  | S n => step native (exec native n)
  end.

(** [createSharedState], lines 89-91, in an environment with the given
    heaps and bindings. *)
Definition createSharedState (initialState : value)
           (os : list obj) (fs : list closure) (hs : list binding) : world :=
  World initialState [] os fs hs [].

(** ** Notions used in the statements *)

(** [n] successive invocations [f()]. *)
Fixpoint call_times (rec : action -> world -> outcome (value * world))
         (f : fref) (n : nat) (w : world) : outcome world :=
  match n with
  | O => Done w
  | S n' => '(_, w') ← call rec f [] w; call_times rec f n' w'
  end.

(** Successive [set] calls. *)
Fixpoint set_all (native : bool) (rec : action -> world -> outcome (value * world))
         (nexts : list value) (w : world) : outcome world :=
  match nexts with
  | [] => Done w
  | next :: nexts' => w' ← set native rec next w; set_all native rec nexts' w'
  end.

(** An application function that does not call back into the container. *)
Definition quiet (fs : list closure) (f : fref) : Prop :=
  exists u, fs !! f = Some (User u) /\ forall args, effects u args = [].

(** The candidate next value [c] of [set(next)] in [w], with the objects
    [new] it allocates: the literal argument, or the result of applying an
    updater without effects to the current value. *)
Inductive candidate (w : world) : value -> list obj -> value -> Prop :=
  | candidate_literal (next : value) :
      typeof next <> TFunction -> candidate w next [] next
  | candidate_updater (f : fref) (u : ufun) (new : list obj) (c : value) :
      funs w !! f = Some (User u) ->
      effects u [state w] = [] ->
      result u (objs w) [state w] = (new, c) ->
      candidate w (VFun f) new c.

(** The argument of [set] as the tagged variant of the specification: a
    literal, or a pure function of the previous value. *)
Inductive setarg : Type :=
  | Literal (v : value)
  | Updater (g : value -> value).

Definition implements (fs : list closure) (next : value) (a : setarg) : Prop :=
  match a with
  | Literal v => next = v /\ typeof v <> TFunction
  | Updater g =>
      exists f u, next = VFun f /\ fs !! f = Some (User u)
                  /\ (forall args, effects u args = [])
                  /\ forall os v, result u os [v] = ([], g v)
  end.

(** The value [get] is specified to return after a sequence of [set]
    calls: each candidate replaces the current value unless it is
    SameValue-equal to it. *)
Fixpoint get_after (cur : value) (args : list setarg) : value :=
  match args with
  | [] => cur
  | a :: args' =>
      let c := match a with Literal v => v | Updater g => g cur end in
      get_after (if decide (SameValue cur c) then cur else c) args'
  end.

(** A [usePick] binding as a render with [picker] that returned [shown]
    leaves it, up to updates queued since. *)
Definition rendered_with (picker : fref) (shown : value) (b : binding) : Prop :=
  ref_picker b = picker /\ ref_oldState b = shown /\ pickedState b = shown.

(** Function references that exist. *)
Definition valid_value (n : nat) (v : value) : Prop :=
  match v with VFun f => f < n | _ => True end.

Definition valid_action (n : nat) (a : action) : Prop :=
  match a with
  | ASet next => valid_value n next
  | AUpdate _ => True
  | ASubscribe subscriber => subscriber < n
  | AUnsubscribe _ => True
  | ACall f _ => f < n
  end.

Definition valid_closure (n m : nat) (c : closure) : Prop :=
  match c with
  | User u => forall args, Forall (valid_action n) (effects u args)
  | UnsubArrow _ => True
  | MergeArrow _ => True
  | PickSub i => i < m
  end.

(** A world as well-typed use of the handle produces: every function that
    can get called exists. *)
Record well_formed (w : world) : Prop := WellFormed {
  wf_subscribers : Forall (fun cb => cb < length (funs w)) (subscribers w);
  wf_funs : Forall (valid_closure (length (funs w)) (length (hooks w))) (funs w);
  wf_hooks : Forall (fun b => ref_picker b < length (funs w)
                              /\ sub b < length (funs w)) (hooks w);
}.

(** The value stored last according to the log, [init] when the log has
    no assignment. *)
Fixpoint last_stored (init : value) (l : list event) : value :=
  match l with
  | [] => init
  | Stored v :: l' => last_stored v l'
  | Notified _ _ _ :: l' => last_stored init l'
  end.

(** The container's value is the one stored last. *)
Definition tracked (init : value) (w : world) : Prop :=
  state w = last_stored init (log w).

(** A property of the result of an outcome that has one. *)
Definition when_done {A : Type} (P : A -> Prop) (o : outcome A) : Prop :=
  match o with
  | Done a => P a
  | Fault => True
  | Timeout => True
  end.

(** An outcome that is no [Fault], with a result satisfying [P] when there
    is one. *)
Definition no_fault {A : Type} (P : A -> Prop) (o : outcome A) : Prop :=
  match o with
  | Done a => P a
  | Fault => False
  | Timeout => True
  end.

(** A well-formed world in which the functions of [w] still exist. *)
Definition extends (w w' : world) : Prop :=
  well_formed w' /\ length (funs w) <= length (funs w').

(** ** Values and worlds for the examples *)

Definition zero : value := VNum num_pzero.
Definition one : value := VNum num_one.
Definition five : value := VNum (num_of_Z 5).

(** [() => {}]. *)
Definition noop : ufun := UFun (fun _ => []) (fun _ _ => ([], VUndefined)).

(** An observer that unsubscribes the function at reference 0 (itself, in
    the worlds below) when it is notified. *)
Definition once : ufun :=
  UFun (fun _ => [AUnsubscribe 0]) (fun _ _ => ([], VUndefined)).

(** An observer that calls [set(5)] when the previous value it is told of
    is a zero. *)
Definition bump : ufun :=
  UFun (fun args => match nth 0 args VUndefined with
                    | VNum (S754_zero _) => [ASet five]
                    | _ => []
                    end)
       (fun _ _ => ([], VUndefined)).

(** [(s) => s]. *)
Definition identity : ufun :=
  UFun (fun _ => []) (fun _ args => ([], nth 0 args VUndefined)).

(** [() => v]. *)
Definition constant (v : value) : ufun := UFun (fun _ => []) (fun _ _ => ([], v)).

(** No observer yet; [noop] is the function at reference 0. *)
Definition no_observer (v : value) : world :=
  World v [] [] [User noop] [] [].

(** Two observers, [once] subscribed before [noop]. *)
Definition two_observers (v : value) (os : list obj) : world :=
  World v [0; 1] os [User once; User noop] [] [].

(** Two observers, [bump] subscribed before [noop]. *)
Definition bumping (v : value) : world :=
  World v [0; 1] [] [User bump; User noop] [] [].

(** One observer [noop]; the function at reference 1 returns the one at
    reference 0. *)
Definition one_observer (v : value) (os : list obj) : world :=
  World v [0] os [User noop; User (constant (VFun 0))] [] [].

(** [{a: 1}]. *)
Definition obj_a1 : obj := {[ "a"%string := one ]}.

(** A component whose [usePick((s) => s)] rendered with 0, in a container
    holding [v]. *)
Definition picking (v : value) (q : list value) : world :=
  World v [1] [] [User identity; PickSub 0] [Binding 0 zero zero q 1 None] [].

(** ** Further notions and examples *)

(** An application function whose only calls back into the container are
    [subscribe] calls. *)
Definition subscribing (fs : list closure) (f : fref) : Prop :=
  exists u, fs !! f = Some (User u)
            /\ forall args, Forall (fun a => exists g, a = ASubscribe g)
                                   (effects u args).

(** The observers that a list of actions subscribes, in order. *)
Definition subscribed_by (acts : list action) : list fref :=
  omap (fun a => match a with ASubscribe g => Some g | _ => None end) acts.

(** The observers that the function [cb] subscribes when it is called
    with [args]. *)
Definition newcomers (fs : list closure) (args : list value) (cb : fref)
  : list fref :=
  match fs !! cb with
  | Some (User u) => subscribed_by (effects u args)
  | _ => []
  end.

(** An observer that sets the container back to the previous value. *)
Definition revert : ufun :=
  UFun (fun args => [ASet (nth 0 args VUndefined)]) (fun _ _ => ([], VUndefined)).

(** The container with [revert] as its only observer. *)
Definition reverting (v : value) (os : list obj) (l : list event) : world :=
  World v [0] os [User revert] [] l.

(** An observer that subscribes [noop] (the function at reference 1 in the
    world below) each time it is notified. *)
Definition recruit : ufun :=
  UFun (fun _ => [ASubscribe 1]) (fun _ _ => ([], VUndefined)).

Definition recruiting (v : value) : world :=
  World v [0; 1] [] [User recruit; User noop] [] [].

(** A component whose [usePick((s) => s)] rendered with 0 and whose
    effects did not run yet. *)
Definition rendered_once (v : value) : world :=
  World v [] [] [User identity; PickSub 0] [Binding 0 zero zero [] 1 None] [].

(** * Properties *)

(** ** Facts about the equality checks *)

Lemma SFeqb_true_iff (a b : number) :
  SFeqb a b = true <->
  (a = b /\ a <> S754_nan) \/ (exists s t, a = S754_zero s /\ b = S754_zero t).
Proof.
  split.
  - unfold SFeqb, SFcompare.
    destruct a as [s| s| |s m e], b as [t| t| |t m' e']; try discriminate;
      try (destruct s; discriminate); try (destruct t; discriminate).
    + intros _; right; eauto.
    + destruct s, t; try discriminate; intros _; left; done.
    + destruct s, t; try discriminate.
      * destruct (Z.compare_spec e e') as [->| |]; try discriminate.
        destruct (Pos.compare_cont Eq m m') eqn:E; try discriminate.
        apply Pos.compare_eq in E as ->. intros _; left; done.
      * destruct (Z.compare_spec e e') as [->| |]; try discriminate.
        destruct (Pos.compare_cont Eq m m') eqn:E; try discriminate.
        apply Pos.compare_eq in E as ->. intros _; left; done.
  - intros [[<- Hn]|(s&t&->&->)]; [|done].
    unfold SFeqb, SFcompare. destruct a as [s| s| |s m e]; try done.
    + by destruct s.
    + destruct s; rewrite Z.compare_refl;
        change (Pos.compare_cont Eq m m) with (Pos.compare m m);
        by rewrite Pos.compare_refl.
Qed.

Lemma SFeqb_refl_iff (a : number) : SFeqb a a = true <-> a <> S754_nan.
Proof.
  rewrite SFeqb_true_iff. split.
  - intros [[_ ?]|(s&t&->&_)]; done.
  - intros ?; left; done.
Qed.

Lemma SFeqb_pzero_iff (a : number) :
  SFeqb a num_pzero = true <-> exists s, a = S754_zero s.
Proof.
  rewrite SFeqb_true_iff. unfold num_pzero. split.
  - intros [[-> _]|(s&t&->&_)]; eauto.
  - intros [s ->]; right; eauto.
Qed.

Lemma recip_zero (s : bool) :
  SFdiv prec emax num_one (S754_zero s) = S754_infinity s.
Proof. by destruct s. Qed.

Lemma strict_eq_true_iff (x y : value) :
  strict_eq x y = true <->
  (x = y /\ x <> VNum num_nan)
  \/ (exists s t, x = VNum (S754_zero s) /\ y = VNum (S754_zero t)).
Proof.
  destruct x, y; simpl;
    try (split; [discriminate | intros [[? ?]|(?&?&?&?)]; congruence]);
    try (split; [intros _; left; done | done]).
  - rewrite Bool.eqb_true_iff. split; [intros ->; left; done|].
    intros [[? ?]|(?&?&?&?)]; congruence.
  - rewrite SFeqb_true_iff. unfold num_nan. split.
    + intros [[-> ?]|(s&t&->&->)]; [left; split; congruence | right; eauto].
    + intros [[[= ->] ?]|(s&t&[= ->]&[= ->])]; [left; split; congruence | right; eauto].
  - rewrite bool_decide_eq_true. split; [intros ->; left; done|].
    intros [[? ?]|(?&?&?&?)]; congruence.
  - rewrite Nat.eqb_eq. split; [intros ->; left; done|].
    intros [[? ?]|(?&?&?&?)]; congruence.
  - rewrite Nat.eqb_eq. split; [intros ->; left; done|].
    intros [[? ?]|(?&?&?&?)]; congruence.
Qed.

Lemma strict_neq_self_iff (x : value) :
  strict_neq x x = true <-> x = VNum num_nan.
Proof.
  unfold strict_neq. rewrite negb_true_iff, <- not_true_iff_false, strict_eq_true_iff.
  split.
  - intros H. destruct (decide (x = VNum num_nan)); [done|].
    exfalso; apply H; left; done.
  - intros -> [[_ ?]|(s&t&?&_)]; done.
Qed.

(** [is_] computes SameValue. *)
Lemma is_SameValue (x y : value) : is_ x y = true <-> SameValue x y.
Proof.
  unfold SameValue, is_. rewrite orb_true_iff, !andb_true_iff, orb_true_iff.
  rewrite !strict_neq_self_iff. split.
  - intros [[Hxy H]|[-> ->]]; [|done].
    apply strict_eq_true_iff in Hxy as [[? _]|(s&t&->&->)]; [done|].
    destruct H as [H|H]; [by destruct s|].
    unfold js_div in H. rewrite !recip_zero in H. by destruct s, t.
  - intros <-. destruct (decide (x = VNum num_nan)) as [->|Hn]; [by right|].
    left. split; [apply strict_eq_true_iff; by left|].
    destruct (strict_neq x (VNum num_pzero)) eqn:E; [by left|right].
    apply negb_false_iff, strict_eq_true_iff in E as [[-> _]|(s&t&->&_)]; [done|].
    unfold js_div. rewrite recip_zero. by destruct s.
Qed.

Lemma objectIs_SameValue (native : bool) (x y : value) :
  objectIs native x y = true <-> SameValue x y.
Proof.
  destruct native; simpl; [apply bool_decide_eq_true | apply is_SameValue].
Qed.

Lemma objectIs_false (native : bool) (x y : value) :
  objectIs native x y = false <-> ~ SameValue x y.
Proof. rewrite <- not_true_iff_false, objectIs_SameValue. done. Qed.

(** The quotients of [is_] are taken of numbers only: they are reached when
    [x === y] holds and [x !== 0] fails. *)
Lemma is_divides_numbers_only (x y : value) :
  strict_eq x y = true -> strict_neq x (VNum num_pzero) = false ->
  typeof x = TNumber /\ typeof y = TNumber.
Proof.
  intros Hxy H0. apply negb_false_iff in H0.
  destruct x; try discriminate. destruct y; try discriminate. done.
Qed.

(** ** The observer list *)

Lemma indexOf_bounds (l : list fref) (x : fref) :
  (-1 <= indexOf l x < Z.of_nat (length l))%Z.
Proof.
  induction l as [|y l IH]; simpl; [lia|].
  destruct (Nat.eqb y x); [lia|].
  destruct (Z.eqb_spec (indexOf l x) (-1)); lia.
Qed.

Lemma indexOf_not_elem (l : list fref) (x : fref) :
  x ∉ l -> indexOf l x = (-1)%Z.
Proof.
  induction l as [|y l IH]; simpl; [done|].
  intros Hx. apply not_elem_of_cons in Hx as [Hne Hx].
  destruct (Nat.eqb_spec y x); [congruence|].
  rewrite IH by done. done.
Qed.

Lemma indexOf_first (l1 l2 : list fref) (x : fref) :
  x ∉ l1 -> indexOf (l1 ++ x :: l2) x = Z.of_nat (length l1).
Proof.
  induction l1 as [|y l1 IH]; simpl.
  - intros _. by rewrite Nat.eqb_refl.
  - intros Hx. apply not_elem_of_cons in Hx as [Hne Hx].
    destruct (Nat.eqb_spec y x); [congruence|].
    rewrite IH by done.
    destruct (Z.eqb_spec (Z.of_nat (length l1)) (-1)); lia.
Qed.

Lemma splice_one (l1 l2 : list fref) (x : fref) :
  splice (l1 ++ x :: l2) (Z.of_nat (length l1)) 1 = l1 ++ l2.
Proof.
  unfold splice. rewrite length_app. simpl.
  destruct (Z.ltb_spec (Z.of_nat (length l1)) 0); [lia|].
  rewrite Z.min_l by lia. rewrite Nat2Z.id.
  replace (Z.to_nat _) with (S (length l1)) by lia.
  rewrite take_app_length.
  change (l1 ++ x :: l2) with (l1 ++ [x] ++ l2).
  rewrite app_assoc, drop_app_length'; [done|].
  rewrite length_app. simpl. lia.
Qed.

Lemma first_occurrence (l : list fref) (x : fref) :
  x ∈ l -> exists l1 l2, l = l1 ++ x :: l2 /\ (x ∉ l1).
Proof.
  induction l as [|y l IH]; [by intros ?%elem_of_nil|].
  intros Hx. destruct (decide (y = x)) as [->|Hne].
  - exists [], l. split; [done | apply not_elem_of_nil].
  - apply elem_of_cons in Hx as [?|Hx]; [congruence|].
    destruct (IH Hx) as (l1 & l2 & -> & Hl1).
    exists (y :: l1), l2. split; [done|].
    apply not_elem_of_cons; split; [congruence | done].
Qed.

Lemma unsubscribe_absent (subscriber : fref) (w : world) :
  subscriber ∉ subscribers w -> unsubscribe subscriber w = w.
Proof.
  intros H. unfold unsubscribe. by rewrite indexOf_not_elem.
Qed.

Lemma unsubscribe_first (subscriber : fref) (w : world) (l1 l2 : list fref) :
  subscribers w = l1 ++ subscriber :: l2 -> subscriber ∉ l1 ->
  unsubscribe subscriber w = with_subscribers (l1 ++ l2) w.
Proof.
  intros Hl Hl1. unfold unsubscribe. rewrite Hl, indexOf_first by done.
  destruct (Z.gtb_spec (Z.of_nat (length l1)) (-1)); [|lia].
  by rewrite splice_one.
Qed.

(** C5: [unsubscribe(observer)] removes the first entry that is the
    reference [observer] and keeps every other entry, in the original
    order; when the list has no such entry, nothing changes.  Nothing but
    the observer list is touched. *)
Theorem unsubscribe_removes_first_only (subscriber : fref) (w : world) :
  (exists l1 l2,
      subscribers w = l1 ++ subscriber :: l2 /\ (subscriber ∉ l1)
      /\ unsubscribe subscriber w = with_subscribers (l1 ++ l2) w)
  \/ ((subscriber ∉ subscribers w) /\ unsubscribe subscriber w = w).
Proof.
  destruct (decide (subscriber ∈ subscribers w)) as [Hin|Hout].
  - left. destruct (first_occurrence _ _ Hin) as (l1 & l2 & Hl & Hl1).
    exists l1, l2. split_and!; [done..|]. by apply unsubscribe_first.
  - right. split; [done|]. by apply unsubscribe_absent.
Qed.

Lemma with_subscribers_id (w : world) : with_subscribers (subscribers w) w = w.
Proof. by destruct w. Qed.

Lemma subscribe_unsubscribe (cb : fref) (w : world) :
  cb ∉ subscribers w ->
  unsubscribe cb (subscribe cb w).2
  = with_subscribers (subscribers w) (subscribe cb w).2.
Proof.
  intros Hcb. unfold subscribe, alloc_fun. simpl.
  erewrite unsubscribe_first with (l1 := subscribers w) (l2 := []); [|done..].
  unfold with_subscribers. simpl. by rewrite app_nil_r.
Qed.

(** The arrow function returned by [subscribe] does nothing on a list
    without an entry for its observer. *)
Lemma call_unsub_absent rec (unf cb : fref) (args : list value) (w : world) :
  funs w !! unf = Some (UnsubArrow cb) -> cb ∉ subscribers w ->
  call rec unf args w = Done (VUndefined, w).
Proof.
  intros Hf Hcb. unfold call. rewrite Hf. by rewrite unsubscribe_absent.
Qed.

Lemma subscribe_handle (cb : fref) (w : world) :
  funs (subscribe cb w).2 !! (subscribe cb w).1 = Some (UnsubArrow cb).
Proof.
  unfold subscribe, alloc_fun. simpl.
  rewrite lookup_app_r by done. by rewrite Nat.sub_diag.
Qed.

(** The arrow function returned by [subscribe] removes the first entry of
    its observer from whatever list it finds. *)
Lemma call_unsub_first rec (unf cb : fref) (args : list value) (w : world)
      (l1 l2 : list fref) :
  funs w !! unf = Some (UnsubArrow cb) ->
  subscribers w = l1 ++ cb :: l2 -> (cb ∉ l1) ->
  call rec unf args w = Done (VUndefined, with_subscribers (l1 ++ l2) w).
Proof.
  intros Hf Hl Hl1. unfold call. rewrite Hf.
  by rewrite (unsubscribe_first cb w l1 l2).
Qed.

(** C4 (amended): when the observer has no other entry in the list, the
    function returned by [subscribe] removes its entry at the first
    invocation, and every invocation after that one leaves the list, and
    everything else, as the first invocation left it.  In any later world
    in which the observer has entries, an invocation of that function
    removes the first of them and nothing else; in one in which it has
    none, it changes nothing. *)
Theorem unsubscribe_handle_repeated rec (cb : fref) (w : world) (n : nat) :
  ((cb ∉ subscribers w) ->
   call_times rec (subscribe cb w).1 (S n) (subscribe cb w).2
   = Done (with_subscribers (subscribers w) (subscribe cb w).2))
  /\ funs (subscribe cb w).2 !! (subscribe cb w).1 = Some (UnsubArrow cb)
  /\ (forall w' l1 l2,
         funs w' !! (subscribe cb w).1 = Some (UnsubArrow cb) ->
         subscribers w' = l1 ++ cb :: l2 -> (cb ∉ l1) ->
         call rec (subscribe cb w).1 [] w'
         = Done (VUndefined, with_subscribers (l1 ++ l2) w'))
  /\ (forall w',
         funs w' !! (subscribe cb w).1 = Some (UnsubArrow cb) ->
         (cb ∉ subscribers w') ->
         call rec (subscribe cb w).1 [] w' = Done (VUndefined, w')).
Proof.
  split_and!.
  - intros Hcb. cbn [call_times]. unfold call at 1. rewrite subscribe_handle.
    cbn [mbind outcome_bind]. rewrite subscribe_unsubscribe by done.
    set (w2 := with_subscribers _ _).
    assert (Hf : funs w2 !! (subscribe cb w).1 = Some (UnsubArrow cb))
      by apply subscribe_handle.
    assert (Hs : cb ∉ subscribers w2) by done.
    clearbody w2. induction n as [|n IH]; cbn [call_times]; [done|].
    by rewrite call_unsub_absent with (cb := cb).
  - apply subscribe_handle.
  - intros w' l1 l2. apply call_unsub_first.
  - intros w'. apply call_unsub_absent.
Qed.

(** ** Shallow equality *)

Lemma Object_keys_length (os : list obj) (v : value) :
  length (Object_keys os v) = size (dom (own_props os v)).
Proof.
  unfold Object_keys. by rewrite length_fmap, length_map_to_list, size_dom.
Qed.

Lemma elem_of_Object_keys (os : list obj) (v : value) (k : string) :
  k ∈ Object_keys os v <-> k ∈ dom (own_props os v).
Proof.
  unfold Object_keys. rewrite elem_of_dom, list_elem_of_fmap. split.
  - intros ([k' x] & -> & H%elem_of_map_to_list). by exists x.
  - intros [x H]. exists (k, x). split; [done|]. by apply elem_of_map_to_list.
Qed.

Lemma hasOwnProperty_true (os : list obj) (v : value) (k : string) :
  hasOwnProperty os v k = true <-> k ∈ dom (own_props os v).
Proof. unfold hasOwnProperty. by rewrite bool_decide_eq_true, elem_of_dom. Qed.

Lemma shallowEqual_objects (os : list obj) (a b : addr) :
  shallowEqual os (VObj a) (VObj b) = true <->
  a = b
  \/ (dom (own_props os (VObj a)) = dom (own_props os (VObj b))
      /\ forall k, k ∈ dom (own_props os (VObj a)) ->
                   SameValue (get_prop os (VObj a) k) (get_prop os (VObj b) k)).
Proof.
  unfold shallowEqual.
  destruct (is_ (VObj a) (VObj b)) eqn:His.
  { apply is_SameValue in His as [= ->]. split; [by left | done]. }
  assert (a <> b) as Hne.
  { intros ->. apply not_true_iff_false in His. apply His, is_SameValue. done. }
  cbn [typeof jstype_eqb strict_eq negb orb].
  rewrite !Object_keys_length.
  set (A := VObj a). set (B := VObj b).
  destruct (Nat.eqb_spec (size (dom (own_props os A))) (size (dom (own_props os B))))
    as [Hsz|Hsz]; cbn [negb].
  - rewrite forallb_forall. split.
    + intros H. right.
      assert (forall k, k ∈ dom (own_props os A) ->
                k ∈ dom (own_props os B)
                /\ SameValue (get_prop os A k) (get_prop os B k)) as H'.
      { intros k Hk. specialize (H k).
        rewrite <- list_elem_of_In, elem_of_Object_keys in H.
        specialize (H Hk). rewrite negb_true_iff, orb_false_iff in H.
        destruct H as [H1 H2]. apply negb_false_iff in H1, H2.
        split; [by apply hasOwnProperty_true | by apply is_SameValue]. }
      split; [|intros k Hk; by apply H'].
      apply set_subseteq_size_eq; [|lia].
      intros k Hk. by apply H'.
    + intros [?|[Hdom Hv]]; [done|]. intros k Hk.
      rewrite <- list_elem_of_In, elem_of_Object_keys in Hk.
      rewrite negb_true_iff, orb_false_iff, !negb_false_iff. split.
      * apply hasOwnProperty_true. by rewrite <- Hdom.
      * apply is_SameValue. by apply Hv.
  - split; [done|]. intros [?|[Hdom _]]; [done|]. by rewrite Hdom in Hsz.
Qed.


(** ** [set] and [update] *)

(** The test [typeof next === 'function'] of line 112 is the case
    distinction of [set] on [VFun]. *)
Lemma typeof_function (v : value) :
  typeof v = TFunction <-> exists f, v = VFun f.
Proof.
  destruct v; cbn; split; try discriminate; try (intros [? ?]; discriminate).
  all: eauto.
Qed.

Lemma alloc_objs_nil (w : world) : alloc_objs [] w = w.
Proof. destruct w. unfold alloc_objs. simpl. by rewrite app_nil_r. Qed.

Lemma alloc_objs_app (new new' : list obj) (w : world) :
  alloc_objs new' (alloc_objs new w) = alloc_objs (new ++ new') w.
Proof. unfold alloc_objs. simpl. by rewrite app_assoc. Qed.

Section Quiet.

Variable native : bool.
Variable rec : action -> world -> outcome (value * world).

Lemma call_quiet (f : fref) (args : list value) (w : world) :
  quiet (funs w) f ->
  exists new v, call rec f args w = Done (v, alloc_objs new w).
Proof.
  intros (u & Hf & Hq). unfold call. rewrite Hf, Hq. cbn.
  destruct (result u (objs w) args) as [new v]. eauto.
Qed.

Lemma call_candidate (f : fref) (w : world) (new : list obj) (c : value) :
  candidate w (VFun f) new c ->
  call rec f [state w] w = Done (c, alloc_objs new w).
Proof.
  inversion 1 as [? Hty|? u ? ? Hf He Hr]; subst; [done|].
  unfold call. rewrite Hf, He. cbn. by rewrite Hr.
Qed.

Lemma notify_quiet (prevState : value) (cb : fref) (w : world) :
  quiet (funs w) cb ->
  exists new,
    notify rec prevState cb w
    = Done (alloc_objs new
              (with_log (log w ++ [Notified cb prevState (state w)]) w)).
Proof.
  intros Hq. unfold notify.
  edestruct call_quiet as (new & v & ->); [exact Hq|]. by exists new.
Qed.

(** One pass over observers that leave the container alone: each index
    from [k] on is visited once, in order. *)
Lemma forEach_from_quiet (prevState : value) (n k : nat) (w : world) :
  Forall (quiet (funs w)) (subscribers w) ->
  k + n = length (subscribers w) ->
  exists new,
    forEach_from (notify rec prevState) n k w
    = Done (alloc_objs new
              (with_log
                 (log w ++ map (fun cb => Notified cb prevState (state w))
                               (drop k (subscribers w)))
                 w)).
Proof.
  revert k w. induction n as [|n IH]; intros k w Hq Hlen.
  - exists []. cbn. rewrite drop_ge by lia. cbn.
    rewrite alloc_objs_nil. destruct w; unfold with_log; cbn.
    by rewrite app_nil_r.
  - cbn [forEach_from].
    destruct (subscribers w !! k) as [cb|] eqn:Hk;
      [|apply lookup_ge_None in Hk; lia].
    assert (quiet (funs w) cb) as Hcb.
    { eapply Forall_forall; [exact Hq|]. by eapply list_elem_of_lookup_2. }
    destruct (notify_quiet prevState cb w Hcb) as [new ->]. cbn.
    set (w1 := alloc_objs new _).
    destruct (IH (S k) w1) as [new' ->]; [done | cbn; lia |].
    exists (new ++ new'). subst w1. f_equal.
    rewrite (drop_S _ _ _ Hk). cbn.
    unfold alloc_objs, with_log. cbn. by rewrite <- !app_assoc.
Qed.

Lemma forEach_quiet (prevState : value) (w : world) :
  Forall (quiet (funs w)) (subscribers w) ->
  exists new,
    forEach (notify rec prevState) w
    = Done (alloc_objs new
              (with_log
                 (log w ++ map (fun cb => Notified cb prevState (state w))
                               (subscribers w))
                 w)).
Proof.
  intros Hq. unfold forEach.
  destruct (forEach_from_quiet prevState (length (subscribers w)) 0 w Hq)
    as [new ->]; [lia|]. by exists new.
Qed.

Lemma set_step (next : value) (w : world) (new : list obj) (c : value) :
  candidate w next new c ->
  set native rec next w
  = if objectIs native (state w) c then Done (alloc_objs new w)
    else forEach (notify rec (state w)) (store c (alloc_objs new w)).
Proof.
  intros Hc. unfold set. destruct next;
    try (inversion Hc; subst; cbn; by rewrite alloc_objs_nil).
  rewrite (call_candidate _ _ _ _ Hc). done.
Qed.

Lemma set_unchanged (next : value) (w : world) (new : list obj) (c : value) :
  candidate w next new c -> SameValue (get w) c ->
  set native rec next w = Done (alloc_objs new w).
Proof.
  intros Hc Hs. rewrite (set_step _ _ _ _ Hc).
  apply (objectIs_SameValue native) in Hs. unfold get in Hs. by rewrite Hs.
Qed.

(** C1: a [set] whose candidate (the literal argument, or the result of
    the updater applied to the current value) is SameValue-equal to the
    current value changes neither the stored value nor the observer
    list and notifies nobody: the world is the one the updater left. *)
Theorem set_same_value_noop (next : value) (w : world)
        (new : list obj) (c : value) :
  candidate w next new c -> SameValue (get w) c ->
  set native rec next w = Done (alloc_objs new w)
  /\ get (alloc_objs new w) = get w
  /\ subscribers (alloc_objs new w) = subscribers w
  /\ log (alloc_objs new w) = log w.
Proof. intros Hc Hs. split; [by eapply set_unchanged | done]. Qed.

Lemma set_changes (next : value) (w : world) (new : list obj) (c : value) :
  candidate w next new c -> ~ SameValue (get w) c ->
  Forall (quiet (funs w)) (subscribers w) ->
  exists new',
    set native rec next w
    = Done (World c (subscribers w) (objs w ++ new') (funs w) (hooks w)
                  (log w ++ Stored c
                         :: map (fun cb => Notified cb (state w) c)
                                (subscribers w))).
Proof.
  intros Hc Hs Hq. rewrite (set_step _ _ _ _ Hc).
  apply (objectIs_false native) in Hs. unfold get in Hs. rewrite Hs.
  destruct (forEach_quiet (state w) (store c (alloc_objs new w)))
    as [new' ->]; [done|].
  exists (new ++ new'). f_equal. unfold alloc_objs, with_log, store. cbn.
  by rewrite <- !app_assoc.
Qed.

(** C2 (amended): when no subscribed observer calls back into the
    container while it is notified, a [set] whose candidate is not
    SameValue-equal to the current value stores the candidate and then
    invokes every subscribed observer once, in subscription order, with
    (previous value, new value), before it returns; the observer list is
    unchanged. *)
Theorem set_stores_and_notifies (next : value) (w : world)
        (new : list obj) (c : value) :
  candidate w next new c -> ~ SameValue (get w) c ->
  Forall (quiet (funs w)) (subscribers w) ->
  exists w',
    set native rec next w = Done w'
    /\ get w' = c
    /\ subscribers w' = subscribers w
    /\ log w' = log w ++ Stored c
                          :: map (fun cb => Notified cb (get w) c) (subscribers w).
Proof.
  intros Hc Hs Hq. destruct (set_changes _ _ _ _ Hc Hs Hq) as [new' ->].
  eexists. split; [done|]. done.
Qed.

Lemma quiet_alloc_fun (c : closure) (w : world) (l : list fref) :
  Forall (quiet (funs w)) l -> Forall (quiet (funs (alloc_fun c w).2)) l.
Proof.
  intros H. eapply Forall_impl; [exact H|].
  intros f (u & Hf & Hq). exists u. split; [|done].
  cbn. by apply lookup_app_l_Some.
Qed.

(** [update] in a world whose current value is not a reference to the
    next free address: the merged object is allocated there, stored, and
    the observers are notified. *)
Lemma update_result (input : value) (w : world) :
  get w <> VObj (length (objs w)) ->
  Forall (quiet (funs w)) (subscribers w) ->
  exists new',
    update native rec input w
    = Done (World (VObj (length (objs w))) (subscribers w)
                  (objs w ++ spread (objs w) (state w) input :: new')
                  (funs w ++ [MergeArrow input]) (hooks w)
                  (log w ++ Stored (VObj (length (objs w)))
                         :: map (fun cb => Notified cb (state w)
                                                    (VObj (length (objs w))))
                                (subscribers w))).
Proof.
  intros Hfresh Hq. unfold update, alloc_fun. cbn [fst snd].
  set (w1 := World _ _ _ (funs w ++ [MergeArrow input]) _ _).
  unfold set.
  assert (call rec (length (funs w)) [state w1] w1
          = Done (VObj (length (objs w)),
                  alloc_objs [spread (objs w) (state w) input] w1)) as ->.
  { unfold call. subst w1. cbn [funs].
    rewrite lookup_app_r by done. by rewrite Nat.sub_diag. }
  cbn [mbind outcome_bind].
  assert (objectIs native (state w) (VObj (length (objs w))) = false) as Hne
      by by apply objectIs_false.
  change (state (alloc_objs _ w1)) with (state w). rewrite Hne.
  destruct (forEach_quiet (state w1)
              (store (VObj (length (objs w)))
                     (alloc_objs [spread (objs w) (state w) input] w1)))
    as [new' ->].
  { apply (quiet_alloc_fun (MergeArrow input) w _ Hq). }
  exists new'. f_equal. unfold alloc_objs, with_log, store. cbn.
  by rewrite <- !app_assoc.
Qed.

(** C3 (amended): on a container holding an object, [update(partial)]
    stores the shallow merge of the current value and [partial] as a new
    object, whose reference differs from the current one, so that the
    call is never suppressed; when no subscribed observer calls back into
    the container while it is notified, every subscriber is notified
    exactly once, in order, also when no field changed. *)
Theorem update_always_notifies (input : value) (w : world) (a : addr) (o : obj) :
  get w = VObj a -> objs w !! a = Some o ->
  Forall (quiet (funs w)) (subscribers w) ->
  exists w',
    update native rec input w = Done w'
    /\ get w' = VObj (length (objs w))
    /\ get w' <> get w
    /\ objs w' !! length (objs w) = Some (own_props (objs w) input ∪ o)
    /\ subscribers w' = subscribers w
    /\ log w' = log w ++ Stored (get w')
                          :: map (fun cb => Notified cb (get w) (get w'))
                                 (subscribers w).
Proof.
  intros Hst Ha Hq.
  assert (a < length (objs w)) as Hlt by by eapply lookup_lt_Some.
  destruct (update_result input w) as [new' ->]; [|done|].
  { rewrite Hst. intros [= ->]. lia. }
  eexists. split; [done|]. split_and!; try done.
  - cbn. rewrite Hst. intros [= <-]. lia.
  - cbn. rewrite lookup_app_r by done. rewrite Nat.sub_diag. cbn.
    unfold spread, own_props. unfold get in Hst. by rewrite Hst, Ha.
Qed.

(** What [update] makes of a current value that is no object: the
    merge treats it as having the fields [own_props] gives it. *)
Lemma update_non_object (input : value) (w : world) :
  (forall a, get w <> VObj a) ->
  Forall (quiet (funs w)) (subscribers w) ->
  exists w',
    update native rec input w = Done w'
    /\ get w' = VObj (length (objs w))
    /\ objs w' !! length (objs w)
       = Some (own_props (objs w) input ∪ own_props (objs w) (get w)).
Proof.
  intros Hst Hq. destruct (update_result input w) as [new' ->]; [done..|].
  eexists. split; [done|]. split; [done|].
  cbn. rewrite lookup_app_r by done. by rewrite Nat.sub_diag.
Qed.

Lemma implements_candidate (w : world) (next : value) (a : setarg) :
  implements (funs w) next a ->
  candidate w next []
            (match a with Literal v => v | Updater g => g (state w) end).
Proof.
  destruct a as [v|g]; cbn.
  - intros [-> Hty]. by constructor.
  - intros (f & u & -> & Hf & He & Hr). econstructor; [done..|]. apply Hr.
Qed.

Lemma set_all_quiet (nexts : list value) (args : list setarg) (w : world) :
  Forall (quiet (funs w)) (subscribers w) ->
  Forall2 (implements (funs w)) nexts args ->
  exists w',
    set_all native rec nexts w = Done w'
    /\ get w' = get_after (get w) args.
Proof.
  intros Hq Himp. revert w Hq Himp.
  induction args as [|a args IH] in nexts |- *; intros w Hq Himp.
  - apply Forall2_nil_inv_r in Himp as ->. by exists w.
  - apply Forall2_cons_inv_r in Himp as (next & nexts' & Ha & Himp & ->).
    cbn [set_all get_after]. apply implements_candidate in Ha.
    unfold get at 2. case_decide as Hs.
    + rewrite (set_unchanged _ _ _ _ Ha Hs).
      rewrite alloc_objs_nil. cbn [mbind outcome_bind]. by apply IH.
    + destruct (set_changes _ _ _ _ Ha Hs Hq) as [new' ->].
      cbn [mbind outcome_bind].
      set (w' := World _ _ _ _ _ _).
      destruct (IH nexts' w') as (w'' & ? & ?); [done..|].
      by exists w''.
Qed.

(** C10: [set] treats every function argument as an updater: it calls it
    with the current value and goes on with what it returns.  With an
    updater without effects, the value stored afterwards is the
    updater's result; the function passed is what [get] returns only
    when the updater returned it. *)
Theorem set_function_is_updater (f : fref) (u : ufun) (w : world)
        (new : list obj) (c : value) :
  funs w !! f = Some (User u) ->
  effects u [get w] = [] ->
  result u (objs w) [get w] = (new, c) ->
  Forall (quiet (funs w)) (subscribers w) ->
  set native rec (VFun f) w
  = ('(nextState, w1) ← call rec f [get w] w;
     if objectIs native (state w1) nextState then Done w1
     else forEach (notify rec (get w)) (store nextState w1))
  /\ call rec f [get w] w = Done (c, alloc_objs new w)
  /\ exists w',
      set native rec (VFun f) w = Done w'
      /\ get w' = c
      /\ (c <> VFun f -> get w' <> VFun f).
Proof.
  intros Hf He Hr Hq.
  assert (candidate w (VFun f) new c) as Hc by by econstructor.
  split; [done|]. split; [by apply call_candidate|].
  destruct (decide (SameValue (get w) c)) as [Hs|Hs].
  - rewrite (set_unchanged _ _ _ _ Hc Hs).
    eexists. split; [done|]. cbn. split; [done|]. by rewrite Hs.
  - destruct (set_changes _ _ _ _ Hc Hs Hq) as [new' ->].
    eexists. split; [done|]. done.
Qed.

End Quiet.

(** ** The [usePick] binding *)

Lemma exec_call (native : bool) (n : nat) (f : fref) (args : list value) (w : world) :
  exec native (S n) (ACall f args) w = call (exec native n) f args w.
Proof. done. Qed.

(** A render leaves the binding with the picker it was given and with the
    projection it returned in both [ref.current.oldState] and the state
    slot, and with nothing queued. *)
Lemma usePick_rendered rec (inst : option nat) (picker : fref) (w w' : world)
      (i : nat) (shown : value) :
  usePick rec inst picker w = Done (i, shown, w') ->
  exists b, hooks w' !! i = Some b /\ rendered_with picker shown b /\ queue b = [].
Proof.
  unfold usePick. destruct inst as [j|].
  - destruct (hooks w !! j) as [b|] eqn:Hb; [|done]. intros [= <- <- <-].
    eexists. split.
    + cbn. apply list_lookup_insert_eq. by eapply lookup_lt_Some.
    + by unfold rendered_with.
  - destruct (call rec _ _ w) as [[init w1]| |]; [|done..]. cbn.
    intros [= <- <- <-]. eexists. split.
    + cbn. rewrite lookup_app_r by done. by rewrite Nat.sub_diag.
    + by unfold rendered_with.
Qed.

(** The first render creates [sub] for the new binding. *)
Lemma usePick_first_sub rec (picker : fref) (w w' : world) (i : nat) (shown : value) :
  usePick rec None picker w = Done (i, shown, w') ->
  exists b, hooks w' !! i = Some b /\ funs w' !! sub b = Some (PickSub i).
Proof.
  unfold usePick. destruct (call rec _ _ w) as [[init w1]| |]; [|done..]. cbn.
  intros [= <- <- <-]. eexists. split.
  - cbn. rewrite lookup_app_r by done. by rewrite Nat.sub_diag.
  - cbn. rewrite lookup_app_r by done. by rewrite Nat.sub_diag.
Qed.

(** The effects of the first commit append [sub] to the observer list,
    then run it once. *)
Lemma usePick_effects_mount rec (i : nat) (d : bool) (w w' : world) (b : binding) :
  hooks w !! i = Some b ->
  usePick_effects rec i true d w = Done w' ->
  exists w1 v,
    subscribers w1 = subscribers w ++ [sub b]
    /\ call rec (sub b) [] w1 = Done (v, w').
Proof.
  intros Hb. unfold usePick_effects. rewrite Hb.
  unfold subscribe, alloc_fun. cbn [orb].
  set (w1 := with_hooks _ _).
  destruct (call rec (sub b) [] w1) as [[v w2]| |] eqn:Hc; [|done..].
  cbn. intros [= <-]. by exists w1, v.
Qed.


(** ** No operation faults *)

Lemma no_fault_bind {A B : Type} (P : A -> Prop) (Q : B -> Prop)
      (m : outcome A) (k : A -> outcome B) :
  no_fault P m -> (forall a, P a -> no_fault Q (k a)) -> no_fault Q (m ≫= k).
Proof. destruct m; cbn; auto. Qed.

Lemma no_fault_impl {A : Type} (P Q : A -> Prop) (o : outcome A) :
  no_fault P o -> (forall a, P a -> Q a) -> no_fault Q o.
Proof. destruct o; cbn; auto. Qed.

Lemma valid_action_mono (n n' : nat) (a : action) :
  n <= n' -> valid_action n a -> valid_action n' a.
Proof.
  intros Hn. destruct a as [next| | | |]; cbn; try lia; try done.
  destruct next; cbn; try done; lia.
Qed.

Lemma valid_closure_mono (n n' m m' : nat) (c : closure) :
  n <= n' -> m <= m' -> valid_closure n m c -> valid_closure n' m' c.
Proof.
  intros Hn Hm. destruct c; cbn; try done; try lia.
  intros H args. eapply Forall_impl; [apply H|].
  intros a. by apply valid_action_mono.
Qed.

Lemma extends_refl (w : world) : well_formed w -> extends w w.
Proof. by split. Qed.

Lemma extends_trans (w1 w2 w3 : world) :
  extends w1 w2 -> extends w2 w3 -> extends w1 w3.
Proof. intros [_ ?] [? ?]. split; [done | lia]. Qed.

Lemma extends_alloc_objs (new : list obj) (w : world) :
  well_formed w -> extends w (alloc_objs new w).
Proof. intros [? ? ?]. by split. Qed.

Lemma extends_with_log (l : list event) (w : world) :
  well_formed w -> extends w (with_log l w).
Proof. intros [? ? ?]. by split. Qed.

Lemma extends_store (v : value) (w : world) :
  well_formed w -> extends w (store v w).
Proof. intros [? ? ?]. by split. Qed.

Lemma extends_alloc_fun (c : closure) (w : world) :
  well_formed w ->
  valid_closure (S (length (funs w))) (length (hooks w)) c ->
  extends w (alloc_fun c w).2.
Proof.
  intros [Hs Hf Hh] Hc. split; [|cbn; rewrite length_app; lia].
  split; cbn; rewrite length_app; cbn; rewrite Nat.add_1_r.
  - eapply Forall_impl; [exact Hs|]. cbn. lia.
  - apply Forall_app. split; [|by apply Forall_singleton].
    eapply Forall_impl; [exact Hf|]. intros c'.
    apply valid_closure_mono; lia.
  - eapply Forall_impl; [exact Hh|]. cbn. lia.
Qed.

Lemma splice_sublist (l : list fref) (start deleteCount : Z) :
  splice l start deleteCount ⊆ l.
Proof.
  unfold splice. intros x [H|H]%elem_of_app.
  - eapply sublist_subseteq; [apply sublist_take | exact H].
  - eapply sublist_subseteq; [apply sublist_drop | exact H].
Qed.

Lemma extends_unsubscribe (subscriber : fref) (w : world) :
  well_formed w -> extends w (unsubscribe subscriber w).
Proof.
  intros Hw. unfold unsubscribe. destruct (_ >? _)%Z; [|by apply extends_refl].
  destruct Hw as [Hs Hf Hh]. split; [|done]. split; cbn; [|done..].
  apply Forall_forall. intros x Hx%splice_sublist.
  revert x Hx. by apply Forall_forall.
Qed.

Lemma extends_subscribe (subscriber : fref) (w : world) :
  well_formed w -> subscriber < length (funs w) ->
  extends w (subscribe subscriber w).2.
Proof.
  intros Hw Hlt. unfold subscribe.
  set (w1 := with_subscribers _ w).
  assert (well_formed w1) as Hw1.
  { destruct Hw as [Hs Hf Hh]. split; cbn; [|done..].
    apply Forall_app. split; [done|]. by apply Forall_singleton. }
  by apply (extends_alloc_fun (UnsubArrow subscriber) w1).
Qed.

Lemma extends_setPickedState (i : nat) (v : value) (w : world) :
  well_formed w -> extends w (setPickedState i v w).
Proof.
  intros [Hs Hf Hh]. split; [|done]. split; cbn.
  - done.
  - by rewrite length_alter.
  - apply Forall_alter; [done|]. by intros b.
Qed.

Section NoFault.

Variable native : bool.
Variable rec : action -> world -> outcome (value * world).

(** The nested calls neither fault nor break the world. *)
Hypothesis rec_ok : forall a w,
    well_formed w -> valid_action (length (funs w)) a ->
    no_fault (fun r => extends w r.2) (rec a w).

Lemma run_ok (l : list action) (w : world) :
  well_formed w -> Forall (valid_action (length (funs w))) l ->
  no_fault (extends w) (run rec l w).
Proof.
  revert w. induction l as [|a l IH]; intros w Hw Hl; cbn [run].
  - by apply extends_refl.
  - apply Forall_cons in Hl as [Ha Hl].
    eapply no_fault_bind; [by apply rec_ok|].
    intros [v w1] [Hw1 Hlen]. cbn in *.
    eapply no_fault_impl; [apply IH; [done|]|].
    + eapply Forall_impl; [exact Hl|]. intros a'.
      by apply valid_action_mono.
    + intros w2 Hw2. eapply extends_trans; [|exact Hw2]. by split.
Qed.

Lemma call_ok (f : fref) (args : list value) (w : world) :
  well_formed w -> f < length (funs w) ->
  no_fault (fun r => extends w r.2) (call rec f args w).
Proof.
  intros Hw Hf. unfold call.
  destruct (funs w !! f) as [c|] eqn:Hc;
    [|apply lookup_ge_None in Hc; lia].
  assert (valid_closure (length (funs w)) (length (hooks w)) c) as Hv.
  { destruct Hw as [_ Hfs _]. eapply Forall_forall; [exact Hfs|].
    by eapply list_elem_of_lookup_2. }
  destruct c as [u|subscriber|input|i]; cbn in Hv.
  - eapply no_fault_bind; [by apply run_ok|].
    intros w1 Hw1. destruct (result u (objs w1) args) as [new v]. cbn.
    eapply extends_trans; [exact Hw1|]. apply extends_alloc_objs, Hw1.
  - cbn. by apply extends_unsubscribe.
  - cbn. by apply extends_alloc_objs.
  - unfold sub_body.
    destruct (hooks w !! i) as [b|] eqn:Hb;
      [|apply lookup_ge_None in Hb; lia].
    assert (ref_picker b < length (funs w)) as Hp.
    { destruct Hw as [_ _ Hh].
      eapply (proj1 (Forall_forall _ _) Hh). by eapply list_elem_of_lookup_2. }
    eapply no_fault_bind; [by apply rec_ok|].
    intros [pickedNew w1] Hw1. cbn in Hw1.
    destruct (negb _); cbn; [|done].
    eapply extends_trans; [exact Hw1|]. apply extends_setPickedState, Hw1.
Qed.

Lemma notify_ok (prevState : value) (cb : fref) (w : world) :
  well_formed w -> cb < length (funs w) ->
  no_fault (extends w) (notify rec prevState cb w).
Proof.
  intros Hw Hcb. unfold notify.
  eapply no_fault_bind.
  - apply call_ok; [by apply extends_with_log | done].
  - intros [v w1] Hw1. cbn in *. destruct Hw1. by split.
Qed.

Lemma forEach_from_ok (prevState : value) (n k : nat) (w : world) :
  well_formed w ->
  no_fault (extends w) (forEach_from (notify rec prevState) n k w).
Proof.
  revert k w. induction n as [|n IH]; intros k w Hw; cbn [forEach_from].
  - by apply extends_refl.
  - destruct (subscribers w !! k) as [cb|] eqn:Hk; [|by apply IH].
    assert (cb < length (funs w)) as Hcb.
    { destruct Hw as [Hs _ _].
      eapply (proj1 (Forall_forall _ _) Hs). by eapply list_elem_of_lookup_2. }
    eapply no_fault_bind; [by apply notify_ok|].
    intros w1 Hw1. eapply no_fault_impl; [apply IH, Hw1|].
    intros w2 Hw2. by eapply extends_trans.
Qed.

Lemma set_ok (next : value) (w : world) :
  well_formed w -> valid_value (length (funs w)) next ->
  no_fault (extends w) (set native rec next w).
Proof.
  intros Hw Hnext. unfold set.
  eapply no_fault_bind with (P := fun r => extends w r.2).
  - destruct next; try (cbn; by apply extends_refl). by apply call_ok.
  - intros [nextState w1] Hw1. cbn in Hw1.
    destruct (objectIs native (state w1) nextState); [done|].
    eapply no_fault_impl.
    + apply forEach_from_ok. apply extends_store, Hw1.
    + intros w2 Hw2. eapply extends_trans; [exact Hw1|].
      destruct Hw2. by split.
Qed.

Lemma update_ok (input : value) (w : world) :
  well_formed w -> no_fault (extends w) (update native rec input w).
Proof.
  intros Hw. unfold update.
  pose proof (extends_alloc_fun (MergeArrow input) w Hw I) as Hw1.
  destruct (alloc_fun (MergeArrow input) w) as [arrow w1] eqn:Ha.
  assert (arrow < length (funs w1)) as Harrow.
  { unfold alloc_fun in Ha. injection Ha as <- <-. cbn.
    rewrite length_app. cbn. lia. }
  cbn in Hw1. eapply no_fault_impl; [apply set_ok; [apply Hw1 | done]|].
  intros w2 Hw2. by eapply extends_trans.
Qed.

Lemma step_ok (a : action) (w : world) :
  well_formed w -> valid_action (length (funs w)) a ->
  no_fault (fun r => extends w r.2) (step native rec a w).
Proof.
  intros Hw Ha. destruct a as [next|input|subscriber|subscriber|f args];
    cbn [step]; cbn in Ha.
  - eapply no_fault_bind; [by apply set_ok|]. by intros w1 Hw1.
  - eapply no_fault_bind; [by apply update_ok|]. by intros w1 Hw1.
  - pose proof (extends_subscribe subscriber w Hw Ha) as H.
    by destruct (subscribe subscriber w).
  - cbn. by apply extends_unsubscribe.
  - by apply call_ok.
Qed.

End NoFault.

Lemma exec_ok (native : bool) (fuel : nat) (a : action) (w : world) :
  well_formed w -> valid_action (length (funs w)) a ->
  no_fault (fun r => extends w r.2) (exec native fuel a w).
Proof.
  revert a w. induction fuel as [|fuel IH]; intros a w Hw Ha; [done|].
  cbn [exec]. by apply step_ok.
Qed.

(** The reactive surface does not fault either, for a picker that exists
    and a component instance the host knows. *)
Lemma usePick_ok rec (inst : option nat) (picker : fref) (w : world) :
  (forall a w, well_formed w -> valid_action (length (funs w)) a ->
               no_fault (fun r => extends w r.2) (rec a w)) ->
  well_formed w -> picker < length (funs w) ->
  from_option (fun i => i < length (hooks w)) True inst ->
  no_fault (fun r => extends w r.2) (usePick rec inst picker w).
Proof.
  intros Hrec Hw Hp Hi. unfold usePick. destruct inst as [i|]; cbn in Hi.
  - destruct (hooks w !! i) as [b|] eqn:Hb;
      [|apply lookup_ge_None in Hb; lia].
    cbn. destruct Hw as [Hs Hf Hh]. split; [|done]. split; cbn.
    + done.
    + by rewrite length_insert.
    + apply Forall_insert; [done|]. cbn. split; [done|].
      assert (b ∈ hooks w) as Hin by by eapply list_elem_of_lookup_2.
      by destruct (proj1 (Forall_forall _ _) Hh b Hin).
  - eapply no_fault_bind; [by apply call_ok|].
    intros [init w1] [[Hs Hf Hh] Hlen]. unfold alloc_fun. cbn in Hs, Hf, Hh, Hlen |- *.
    split; [|cbn; rewrite length_app; lia].
    split; cbn; rewrite !length_app; cbn; rewrite !Nat.add_1_r.
    + eapply Forall_impl; [exact Hs|]. cbn. lia.
    + apply Forall_app. split.
      * eapply Forall_impl; [exact Hf|]. intros c.
        apply valid_closure_mono; cbn; lia.
      * apply Forall_singleton. cbn. lia.
    + apply Forall_app. split.
      * eapply Forall_impl; [exact Hh|]. cbn. lia.
      * apply Forall_singleton. cbn. lia.
Qed.

Lemma usePick_effects_ok rec (i : nat) (mount deps_changed : bool) (w : world) :
  (forall a w, well_formed w -> valid_action (length (funs w)) a ->
               no_fault (fun r => extends w r.2) (rec a w)) ->
  well_formed w -> i < length (hooks w) ->
  no_fault (extends w) (usePick_effects rec i mount deps_changed w).
Proof.
  intros Hrec Hw Hi. unfold usePick_effects.
  destruct (hooks w !! i) as [b|] eqn:Hb; [|apply lookup_ge_None in Hb; lia].
  assert (ref_picker b < length (funs w) /\ sub b < length (funs w)) as [Hp Hsub].
  { destruct Hw as [_ _ Hh].
    assert (b ∈ hooks w) as Hin by by eapply list_elem_of_lookup_2.
    exact (proj1 (Forall_forall _ _) Hh b Hin). }
  set (w1 := if mount then _ else w).
  assert (extends w w1) as Hw1.
  { subst w1. destruct mount; [|by apply extends_refl].
    pose proof (extends_subscribe (sub b) w Hw Hsub) as [[Hs Hf Hh] Hlen].
    destruct (subscribe (sub b) w) as [unf w'] eqn:Hsb. cbn in *.
    assert (hooks w' = hooks w) as Hhk.
    { unfold subscribe, alloc_fun in Hsb. by injection Hsb as <- <-. }
    split; [|done]. split; cbn.
    - done.
    - by rewrite length_insert.
    - apply Forall_insert; [done|]. cbn. lia. }
  destruct (mount || deps_changed); [|done].
  eapply no_fault_bind.
  - apply call_ok; [done | apply Hw1 | destruct Hw1; lia].
  - intros [v w2] Hw2. cbn in *. by eapply extends_trans.
Qed.

(** ** The stored value is the one stored last *)

Lemma when_done_bind {A B : Type} (P : A -> Prop) (Q : B -> Prop)
      (m : outcome A) (k : A -> outcome B) :
  when_done P m -> (forall a, P a -> when_done Q (k a)) -> when_done Q (m ≫= k).
Proof. destruct m; cbn; auto. Qed.

Lemma last_stored_app (init : value) (l1 l2 : list event) :
  last_stored init (l1 ++ l2) = last_stored (last_stored init l1) l2.
Proof.
  revert init. induction l1 as [|[v|cb p n] l1 IH]; intros init; cbn; auto.
Qed.

Lemma tracked_store (init v : value) (w : world) : tracked init (store v w).
Proof. unfold tracked, store. cbn. by rewrite last_stored_app. Qed.

Lemma tracked_notified (init : value) (w : world) (cb : fref) (p n : value) :
  tracked init w -> tracked init (with_log (log w ++ [Notified cb p n]) w).
Proof. unfold tracked. cbn. intros ->. by rewrite last_stored_app. Qed.

Lemma tracked_unsubscribe (init : value) (w : world) (subscriber : fref) :
  tracked init w -> tracked init (unsubscribe subscriber w).
Proof. unfold unsubscribe. by destruct (_ >? _)%Z. Qed.

Section Tracked.

Variable native : bool.
Variable init : value.
Variable rec : action -> world -> outcome (value * world).

Hypothesis rec_tracked : forall a w,
    tracked init w -> when_done (fun r => tracked init r.2) (rec a w).

Lemma run_tracked (l : list action) (w : world) :
  tracked init w -> when_done (tracked init) (run rec l w).
Proof.
  revert w. induction l as [|a l IH]; intros w Hw; cbn [run]; [done|].
  eapply when_done_bind; [by apply rec_tracked|].
  intros [v w1] Hw1. by apply IH.
Qed.

Lemma call_tracked (f : fref) (args : list value) (w : world) :
  tracked init w -> when_done (fun r => tracked init r.2) (call rec f args w).
Proof.
  intros Hw. unfold call. destruct (funs w !! f) as [[u|s|input|i]|]; [| | | |done].
  - eapply when_done_bind; [by apply run_tracked|].
    intros w1 Hw1. by destruct (result u (objs w1) args).
  - cbn. by apply tracked_unsubscribe.
  - done.
  - unfold sub_body. destruct (hooks w !! i) as [b|]; [|done].
    eapply when_done_bind; [by apply rec_tracked|].
    intros [pickedNew w1] Hw1. by destruct (negb _).
Qed.

Lemma notify_tracked (prevState : value) (cb : fref) (w : world) :
  tracked init w -> when_done (tracked init) (notify rec prevState cb w).
Proof.
  intros Hw. unfold notify. eapply when_done_bind.
  - apply call_tracked. by apply tracked_notified.
  - by intros [v w1] Hw1.
Qed.

Lemma forEach_from_tracked (prevState : value) (n k : nat) (w : world) :
  tracked init w ->
  when_done (tracked init) (forEach_from (notify rec prevState) n k w).
Proof.
  revert k w. induction n as [|n IH]; intros k w Hw; cbn [forEach_from]; [done|].
  destruct (subscribers w !! k) as [cb|]; [|by apply IH].
  eapply when_done_bind; [by apply notify_tracked|].
  intros w1 Hw1. by apply IH.
Qed.

Lemma set_tracked (next : value) (w : world) :
  tracked init w -> when_done (tracked init) (set native rec next w).
Proof.
  intros Hw. unfold set.
  eapply when_done_bind with (P := fun r => tracked init r.2).
  - destruct next; try done. by apply call_tracked.
  - intros [nextState w1] Hw1. cbn in Hw1.
    destruct (objectIs native (state w1) nextState); [done|].
    apply forEach_from_tracked, tracked_store.
Qed.

Lemma update_tracked (input : value) (w : world) :
  tracked init w -> when_done (tracked init) (update native rec input w).
Proof. intros Hw. unfold update, alloc_fun. by apply set_tracked. Qed.

Lemma step_tracked (a : action) (w : world) :
  tracked init w -> when_done (fun r => tracked init r.2) (step native rec a w).
Proof.
  intros Hw. destruct a as [next|input|subscriber|subscriber|f args]; cbn [step].
  - eapply when_done_bind; [by apply set_tracked|]. by intros w1 Hw1.
  - eapply when_done_bind; [by apply update_tracked|]. by intros w1 Hw1.
  - done.
  - cbn. by apply tracked_unsubscribe.
  - by apply call_tracked.
Qed.

End Tracked.

(** In every world that the operations reach, however observers and
    updaters call back into the container, [get] returns the value stored
    last (the initial one when none was). *)
Lemma exec_tracked (native : bool) (init : value) (fuel : nat) (a : action)
      (w : world) :
  tracked init w -> when_done (fun r => tracked init r.2) (exec native fuel a w).
Proof.
  revert a w. induction fuel as [|fuel IH]; intros a w Hw; [done|].
  cbn [exec]. by apply step_tracked.
Qed.

Lemma createSharedState_tracked (v : value) (os : list obj) (fs : list closure)
      (hs : list binding) :
  tracked v (createSharedState v os fs hs).
Proof. done. Qed.

(** C7: [get] right after [createSharedState(v)] returns [v].  After a
    sequence of [set] calls with literals or pure updaters, observers
    leaving the container alone, [set] has returned each time and [get]
    returns the candidate accepted last, the candidates SameValue-equal to
    the then current value being skipped.  And whatever the operation and
    whatever observers and updaters do, the world it returns with holds
    one value, the one stored last. *)
Theorem get_returns_last_accepted (native : bool)
        (rec : action -> world -> outcome (value * world))
        (v : value) (os : list obj) (fs : list closure) (hs : list binding)
        (nexts : list value) (args : list setarg)
        (fuel : nat) (a : action) (w : world) :
  Forall (quiet (funs w)) (subscribers w) ->
  Forall2 (implements (funs w)) nexts args ->
  tracked v w ->
  get (createSharedState v os fs hs) = v
  /\ (exists w',
        set_all native rec nexts w = Done w'
        /\ get w' = get_after (get w) args)
  /\ when_done (fun r => get r.2 = last_stored v (log r.2))
                (exec native fuel a w).
Proof.
  intros Hq Himp Hw. split; [done|]. split; [by apply set_all_quiet|].
  by apply exec_tracked.
Qed.


(** ** Examples *)

(** The scenario of the specification: a container holding 0 with one
    observer; [set(1)] notifies it with (0, 1), a second [set(1)] does
    nothing. *)
Example set_scenario :
  exists w1,
    set true (exec true 1) one (one_observer zero []) = Done w1
    /\ get w1 = one
    /\ log w1 = [Stored one; Notified 0 zero one]
    /\ set true (exec true 1) one w1 = Done w1.
Proof. eexists. split_and!; [vm_compute; reflexivity | done..]. Qed.

(** [update({b: 1})] on [{a: 1}] gives a new object [{a: 1, b: 1}]. *)
Example update_scenario :
  exists w1,
    update true (exec true 1) (VObj 1)
           (one_observer (VObj 0) [obj_a1; {[ "b"%string := one ]}]) = Done w1
    /\ get w1 = VObj 2
    /\ objs w1 !! 2 = Some {[ "a"%string := one; "b"%string := one ]}.
Proof. eexists. split_and!; [vm_compute; reflexivity | done | by vm_compute]. Qed.

(** [update({a: 1})] on a container holding a string of one code unit
    (U+4E2D): the new object has the code unit as its field ["0"] and the
    field of the partial. *)
Example update_on_string_scenario :
  exists w1,
    update true (exec true 0) (VObj 0)
           (World (VStr [20013%N]) [] [obj_a1] [] [] []) = Done w1
    /\ get w1 = VObj 1
    /\ objs w1 !! 1
       = Some {[ "0"%string := VStr [20013%N]; "a"%string := one ]}.
Proof. eexists. split_and!; [vm_compute; reflexivity | done | by vm_compute]. Qed.

(** The signed zeros and NaN. *)
Example is_zeros : is_ (VNum num_pzero) (VNum num_nzero) = false.
Proof. reflexivity. Qed.

Example is_nan : is_ (VNum num_nan) (VNum num_nan) = true.
Proof. reflexivity. Qed.

Example strict_eq_zeros : strict_eq (VNum num_pzero) (VNum num_nzero) = true.
Proof. reflexivity. Qed.

(** A component with [usePick((s) => s)] on a container holding 0: first
    render, effects, then [set(1)]; the observer queues the projection 1,
    and the next render returns it. *)
Example usePick_scenario :
  exists w1 w2 w3 w4,
    usePick (exec true 1) None 0 (createSharedState zero [] [User identity] [])
    = Done (0, zero, w1)
    /\ usePick_effects (exec true 1) 0 true false w1 = Done w2
    /\ subscribers w2 = [1]
    /\ set true (exec true 1) one w2 = Done w3
    /\ (queue <$> hooks w3 !! 0) = Some [one]
    /\ usePick (exec true 1) (Some 0) 0 w3 = Done (0, one, w4).
Proof.
  do 4 eexists.
  split_and!; [vm_compute; reflexivity | vm_compute; reflexivity | done
               | vm_compute; reflexivity | done | vm_compute; reflexivity].
Qed.

(** An observer that calls [set] while it is notified: [bump] answers the
    change from 0 to 1 with [set(5)].  The nested call notifies both observers
    with (1, 5); back in the outer pass, [noop] is invoked with the
    container's value at that moment, (0, 5). *)
Example set_reentrant_scenario :
  exists w1,
    set true (exec true 2) one (bumping zero) = Done w1
    /\ get w1 = five
    /\ log w1 = [Stored one; Notified 0 zero one;
                 Stored five; Notified 0 one five; Notified 1 one five;
                 Notified 1 zero five].
Proof. eexists. split_and!; [vm_compute; reflexivity | done..]. Qed.

(** ** Counterexamples *)

(** C2 as stated fails: with [once] subscribed before [noop], [set(1)] on
    a container holding 0 notifies [once] only; [noop], subscribed at that
    moment, is not invoked. *)
Lemma set_skips_an_observer :
  candidate (two_observers zero []) one [] one
  /\ ~ SameValue (get (two_observers zero [])) one
  /\ subscribers (two_observers zero []) = [0; 1]
  /\ exists w',
      set true (exec true 1) one (two_observers zero []) = Done w'
      /\ log w' = [Stored one; Notified 0 zero one]
      /\ log w' <> Stored one
                   :: map (fun cb => Notified cb zero one)
                          (subscribers (two_observers zero [])).
Proof.
  split_and!; [by constructor | done | done |].
  eexists. split_and!; [vm_compute; reflexivity | done | done].
Qed.

(** C3 as stated fails: the same two observers on a container holding
    [{a: 1}]; [update] with that very object as partial notifies [once]
    only. *)
Lemma update_skips_an_observer :
  get (two_observers (VObj 0) [obj_a1]) = VObj 0
  /\ objs (two_observers (VObj 0) [obj_a1]) !! 0 = Some obj_a1
  /\ subscribers (two_observers (VObj 0) [obj_a1]) = [0; 1]
  /\ exists w',
      update true (exec true 1) (VObj 0) (two_observers (VObj 0) [obj_a1]) = Done w'
      /\ log w' = [Stored (VObj 1); Notified 0 (VObj 0) (VObj 1)].
Proof.
  split_and!; [done..|]. eexists. split; [vm_compute; reflexivity | done].
Qed.

(** C4 as stated fails: [noop] subscribed twice; the function returned by
    the first [subscribe], invoked once, leaves one entry; invoked a
    second time, it removes that entry too. *)
Lemma unsubscribe_handle_removes_again :
  exists w1 w2 wa wb,
    subscribe 0 (no_observer zero) = (1, w1)
    /\ subscribe 0 w1 = (2, w2)
    /\ subscribers w2 = [0; 0]
    /\ call_times (exec true 0) 1 1 w2 = Done wa
    /\ subscribers wa = [0]
    /\ call_times (exec true 0) 1 2 w2 = Done wb
    /\ subscribers wb = [].
Proof.
  do 4 eexists.
  split_and!; [vm_compute; reflexivity | vm_compute; reflexivity | done
               | vm_compute; reflexivity | done | vm_compute; reflexivity | done].
Qed.



(** ** Instances of the theorems *)

Lemma one_observer_quiet (v : value) (os : list obj) :
  Forall (quiet (funs (one_observer v os))) (subscribers (one_observer v os)).
Proof. apply Forall_singleton. exists noop. split; reflexivity. Defined.

Lemma one_observer_well_formed (v : value) (os : list obj) :
  well_formed (one_observer v os).
Proof.
  split; cbn.
  - apply Forall_singleton. lia.
  - apply Forall_cons. split; [intros args; apply Forall_nil_2|].
    apply Forall_singleton. intros args. apply Forall_nil_2.
  - apply Forall_nil_2.
Defined.

Lemma set_same_value_noop_witness :
  candidate (one_observer one []) one [] one
  /\ SameValue (get (one_observer one [])) one
  /\ set true (exec true 1) one (one_observer one [])
     = Done (alloc_objs [] (one_observer one []))
  /\ get (alloc_objs [] (one_observer one [])) = get (one_observer one [])
  /\ subscribers (alloc_objs [] (one_observer one []))
     = subscribers (one_observer one [])
  /\ log (alloc_objs [] (one_observer one [])) = log (one_observer one []).
Proof.
  split; [by constructor|]. split; [reflexivity|].
  apply (set_same_value_noop true (exec true 1) one (one_observer one []) [] one);
    [by constructor | reflexivity].
Defined.

Lemma set_stores_and_notifies_witness :
  exists w',
    set true (exec true 1) one (one_observer zero []) = Done w'
    /\ get w' = one
    /\ subscribers w' = subscribers (one_observer zero [])
    /\ log w' = log (one_observer zero [])
                ++ Stored one
                   :: map (fun cb => Notified cb (get (one_observer zero [])) one)
                          (subscribers (one_observer zero [])).
Proof.
  apply (set_stores_and_notifies true (exec true 1) one (one_observer zero []) [] one).
  - by constructor.
  - discriminate.
  - apply one_observer_quiet.
Defined.

Lemma update_always_notifies_witness :
  exists w',
    update true (exec true 1) (VObj 0) (one_observer (VObj 0) [obj_a1]) = Done w'
    /\ get w' = VObj 1
    /\ get w' <> get (one_observer (VObj 0) [obj_a1])
    /\ objs w' !! 1 = Some (own_props [obj_a1] (VObj 0) ∪ obj_a1)
    /\ subscribers w' = subscribers (one_observer (VObj 0) [obj_a1])
    /\ log w' = log (one_observer (VObj 0) [obj_a1])
                ++ Stored (get w')
                   :: map (fun cb => Notified cb (get (one_observer (VObj 0) [obj_a1]))
                                              (get w'))
                          (subscribers (one_observer (VObj 0) [obj_a1])).
Proof.
  apply (update_always_notifies true (exec true 1) (VObj 0)
           (one_observer (VObj 0) [obj_a1]) 0 obj_a1).
  - reflexivity.
  - reflexivity.
  - apply one_observer_quiet.
Defined.

Lemma unsubscribe_handle_repeated_witness :
  (0 ∉ subscribers (no_observer zero))
  /\ call_times (exec true 0) (subscribe 0 (no_observer zero)).1 3
                (subscribe 0 (no_observer zero)).2
     = Done (with_subscribers (subscribers (no_observer zero))
                              (subscribe 0 (no_observer zero)).2)
  /\ call (exec true 0) (subscribe 0 (no_observer zero)).1 []
          (subscribe 0 (subscribe 0 (no_observer zero)).2).2
     = Done (VUndefined,
             with_subscribers ([] ++ [0])
                              (subscribe 0 (subscribe 0 (no_observer zero)).2).2).
Proof.
  destruct (unsubscribe_handle_repeated (exec true 0) 0 (no_observer zero) 2)
    as (Hfirst & _ & Hmore & _).
  split; [apply not_elem_of_nil|]. split.
  - apply Hfirst. apply not_elem_of_nil.
  - apply (Hmore _ [] [0]); [reflexivity | reflexivity | apply not_elem_of_nil].
Defined.

Lemma get_returns_last_accepted_witness :
  get (createSharedState zero [] [] []) = zero
  /\ (exists w',
        set_all true (exec true 1) [one; one; VFun 1; zero] (one_observer zero [])
        = Done w'
        /\ get w'
           = get_after (get (one_observer zero []))
                       [Literal one; Literal one; Updater (fun _ => VFun 0);
                        Literal zero])
  /\ when_done (fun r => get r.2 = last_stored zero (log r.2))
                (exec true 3 (ASet one) (one_observer zero [])).
Proof.
  apply (get_returns_last_accepted true (exec true 1) zero [] [] []
           [one; one; VFun 1; zero]
           [Literal one; Literal one; Updater (fun _ => VFun 0); Literal zero]
           3 (ASet one) (one_observer zero [])).
  - apply one_observer_quiet.
  - repeat apply Forall2_cons_2; try apply Forall2_nil_2;
      try (split; [reflexivity | discriminate]).
    exists 1, (constant (VFun 0)). repeat split; reflexivity.
  - reflexivity.
Defined.



Lemma set_function_is_updater_witness :
  set true (exec true 1) (VFun 1) (one_observer zero [])
  = ('(nextState, w1) ← call (exec true 1) 1 [get (one_observer zero [])]
                            (one_observer zero []);
     if objectIs true (state w1) nextState then Done w1
     else forEach (notify (exec true 1) (get (one_observer zero [])))
                  (store nextState w1))
  /\ call (exec true 1) 1 [get (one_observer zero [])] (one_observer zero [])
     = Done (VFun 0, alloc_objs [] (one_observer zero []))
  /\ exists w',
      set true (exec true 1) (VFun 1) (one_observer zero []) = Done w'
      /\ get w' = VFun 0
      /\ (VFun 0 <> VFun 1 -> get w' <> VFun 1).
Proof.
  apply (set_function_is_updater true (exec true 1) 1 (constant (VFun 0))
           (one_observer zero []) [] (VFun 0)); try reflexivity.
  apply one_observer_quiet.
Defined.

(** * Further properties *)

(** ** The equality checks *)

(** X1: the inlined [is] computes what the host's [Object.is] computes, so
    [objectIs] does not depend on which of the two the host provides. *)
Theorem objectIs_host_independent (x y : value) :
  objectIs true x y = objectIs false x y.
Proof.
  apply Bool.eq_iff_eq_true. by rewrite !objectIs_SameValue.
Qed.

(** X2: [is] and [===] differ on exactly two kinds of pairs: two NaN,
    which [is] accepts and [===] rejects, and two zeros of different sign,
    which [===] accepts and [is] rejects. *)
Theorem is_versus_strict_eq (x y : value) :
  is_ x y <> strict_eq x y <->
  (x = VNum num_nan /\ y = VNum num_nan /\ is_ x y = true)
  \/ (exists s, x = VNum (S754_zero s) /\ y = VNum (S754_zero (negb s))
                /\ is_ x y = false).
Proof.
  split.
  - intros Hne. destruct (is_ x y) eqn:His.
    + apply is_SameValue in His as <-.
      destruct (strict_eq x x) eqn:Hs; [done|].
      left. assert (strict_neq x x = true) as H by by unfold strict_neq; rewrite Hs.
      apply strict_neq_self_iff in H as ->. done.
    + destruct (strict_eq x y) eqn:Hs; [|done].
      apply strict_eq_true_iff in Hs as [[<- _]|(s & t & -> & ->)].
      * apply not_true_iff_false in His. exfalso. apply His, is_SameValue. done.
      * right. exists s. destruct s, t; try done.
  - intros [(-> & -> & _)|(s & -> & -> & _)]; [done | by destruct s].
Qed.

(** ** Shallow equality *)

Lemma is_sym (x y : value) : is_ x y = is_ y x.
Proof.
  apply Bool.eq_iff_eq_true. rewrite !is_SameValue. unfold SameValue.
  split; congruence.
Qed.

(** Unless both operands are object references, [shallowEqual] is [is]. *)
Lemma shallowEqual_not_objects (os : list obj) (x y : value) :
  ~ (exists a b, x = VObj a /\ y = VObj b) ->
  shallowEqual os x y = is_ x y.
Proof.
  intros Hno. unfold shallowEqual. destruct (is_ x y); [done|].
  destruct x, y; try done. exfalso. apply Hno. eauto.
Qed.



(** ** Subscriptions *)

(** X5: [subscribe(cb)] followed by the function it returned leaves the
    observers that were there, but not always in place: when [cb] already
    had an entry, it is that earlier entry which is removed and the new
    one stays at the end.  When [cb] had none, the list is as before. *)
Theorem subscribe_then_handle rec (cb : fref) (w : world) :
  exists w2,
    call rec (subscribe cb w).1 [] (subscribe cb w).2 = Done (VUndefined, w2)
    /\ subscribers w2 ≡ₚ subscribers w
    /\ ((cb ∉ subscribers w) -> subscribers w2 = subscribers w)
    /\ (forall l1 l2, subscribers w = l1 ++ cb :: l2 -> (cb ∉ l1) ->
                      subscribers w2 = l1 ++ l2 ++ [cb]).
Proof.
  unfold call. rewrite subscribe_handle. eexists. split; [done|].
  assert (forall l1 l2, subscribers w = l1 ++ cb :: l2 -> (cb ∉ l1) ->
            subscribers (unsubscribe cb (subscribe cb w).2) = l1 ++ l2 ++ [cb])
    as Hin.
  { intros l1 l2 Hl Hl1.
    rewrite (unsubscribe_first cb _ l1 (l2 ++ [cb])); [done| |done].
    unfold subscribe, alloc_fun. cbn. rewrite Hl. by rewrite <- app_assoc. }
  assert ((cb ∉ subscribers w) ->
          subscribers (unsubscribe cb (subscribe cb w).2) = subscribers w) as Hout.
  { intros Hcb. by rewrite subscribe_unsubscribe. }
  split_and!; [|done..].
  destruct (decide (cb ∈ subscribers w)) as [Hcb|Hcb].
  - destruct (first_occurrence _ _ Hcb) as (l1 & l2 & Hl & Hl1).
    rewrite (Hin l1 l2 Hl Hl1), Hl.
    apply Permutation_app_head. symmetry. apply Permutation_cons_append.
  - by rewrite Hout.
Qed.

(** ** [set] and [update], composed *)

Section Composed.

Variable native : bool.
Variable rec : action -> world -> outcome (value * world).

(** X6: [set] with the same literal twice in a row is [set] with it
    once: the second call changes nothing and notifies nobody. *)
Theorem set_literal_twice (v : value) (w : world) :
  typeof v <> TFunction ->
  Forall (quiet (funs w)) (subscribers w) ->
  exists w1,
    set native rec v w = Done w1
    /\ get w1 = v
    /\ set native rec v w1 = Done w1.
Proof.
  intros Hty Hq.
  assert (forall w0, candidate w0 v [] v) as Hc by (intros; by constructor).
  destruct (decide (SameValue (get w) v)) as [Hs|Hs].
  - rewrite (set_unchanged native rec _ _ _ _ (Hc w) Hs), alloc_objs_nil.
    exists w. split; [done|]. split; [done|].
    by rewrite (set_unchanged native rec _ _ _ _ (Hc w) Hs), alloc_objs_nil.
  - destruct (set_changes native rec _ _ _ _ (Hc w) Hs Hq) as [new' ->].
    eexists. split; [done|]. split; [done|].
    erewrite set_unchanged; [|apply Hc|done]. by rewrite alloc_objs_nil.
Qed.


(** X8: an [update] whose partial has no field that differs from the
    current one (a partial without fields among them) still replaces
    the value: by a new object with the same fields, which is not the
    same value as the previous one but shallow-equal to it; and, when
    no observer calls back into the container while it is notified, it
    still notifies every observer. *)
Theorem update_without_change (input : value) (w : world) (a : addr) (o : obj) :
  get w = VObj a -> objs w !! a = Some o ->
  own_props (objs w) input ⊆ o ->
  Forall (quiet (funs w)) (subscribers w) ->
  exists w',
    update native rec input w = Done w'
    /\ objs w' !! length (objs w) = Some o
    /\ get w' = VObj (length (objs w))
    /\ is_ (get w) (get w') = false
    /\ shallowEqual (objs w') (get w) (get w') = true
    /\ log w' = log w ++ Stored (get w')
                  :: map (fun cb => Notified cb (get w) (get w')) (subscribers w).
Proof.
  intros Hst Ha Hsub Hq.
  assert (a < length (objs w)) as Hlt by by eapply lookup_lt_Some.
  destruct (update_result native rec input w) as [new' ->]; [|done|].
  { rewrite Hst. intros [= ->]. lia. }
  eexists. split; [done|].
  assert (spread (objs w) (state w) input = o) as Hsp.
  { unfold spread. unfold get in Hst. rewrite Hst. cbn. rewrite Ha. cbn.
    by apply map_subseteq_union. }
  assert (is_ (get w) (VObj (length (objs w))) = false) as Hne.
  { apply not_true_iff_false. rewrite is_SameValue, Hst.
    intros [= ->]. lia. }
  split_and!; try done.
  - cbn. rewrite lookup_app_r by done. by rewrite Nat.sub_diag, Hsp.
  - unfold get in *. cbn [state objs]. rewrite Hsp, Hst.
    apply shallowEqual_objects. right.
    assert (own_props (objs w ++ o :: new') (VObj a) = o) as ->.
    { cbn. by rewrite (lookup_app_l_Some _ _ _ _ Ha). }
    assert (own_props (objs w ++ o :: new') (VObj (length (objs w))) = o) as Ho.
    { cbn. rewrite lookup_app_r by done. by rewrite Nat.sub_diag. }
    split; [by rewrite Ho|]. intros k _. unfold get_prop.
    rewrite Ho. cbn. by rewrite (lookup_app_l_Some _ _ _ _ Ha).
Qed.

End Composed.

(** ** Observers that subscribe while they are notified *)

Lemma subscribing_mono (fs fs' : list closure) (l : list fref) :
  fs `prefix_of` fs' -> Forall (subscribing fs) l -> Forall (subscribing fs') l.
Proof.
  intros [k ->] H. eapply Forall_impl; [exact H|].
  intros f (u & Hf & Hs). exists u. split; [|done]. by apply lookup_app_l_Some.
Qed.

Lemma newcomers_mono (fs fs' : list closure) (args : list value) (cb : fref) :
  fs `prefix_of` fs' -> subscribing fs cb ->
  newcomers fs' args cb = newcomers fs args cb.
Proof.
  intros [k ->] (u & Hu & _). unfold newcomers.
  by rewrite (lookup_app_l_Some _ _ _ _ Hu), Hu.
Qed.

Lemma exec_subscribe (native : bool) (n : nat) (g : fref) (w : world) :
  exec native (S n) (ASubscribe g) w
  = Done (VFun (subscribe g w).1, (subscribe g w).2).
Proof. done. Qed.

Lemma run_subscribes (native : bool) (n : nat) (acts : list action) (w : world) :
  Forall (fun a => exists g, a = ASubscribe g) acts ->
  exists w',
    run (exec native (S n)) acts w = Done w'
    /\ state w' = state w /\ log w' = log w /\ objs w' = objs w
    /\ subscribers w' = subscribers w ++ subscribed_by acts
    /\ funs w `prefix_of` funs w'.
Proof.
  revert w. induction acts as [|a acts IH]; intros w Hall; cbn [run].
  - exists w. split_and!; try done. cbn. by rewrite app_nil_r.
  - apply Forall_cons in Hall as [[g ->] Hall].
    rewrite exec_subscribe. cbn [mbind outcome_bind snd].
    set (w1 := (subscribe g w).2).
    destruct (IH w1 Hall) as (w' & -> & Hst & Hlog & Hobjs & Hsub & Hf).
    exists w'. split_and!; try done.
    + rewrite Hsub. cbn. by rewrite <- app_assoc.
    + etrans; [|exact Hf]. cbn. by apply prefix_app_r.
Qed.

Lemma notify_subscribing (native : bool) (m : nat) (prevState : value)
      (cb : fref) (w : world) :
  subscribing (funs w) cb ->
  exists w',
    notify (exec native (S m)) prevState cb w = Done w'
    /\ state w' = state w
    /\ log w' = log w ++ [Notified cb prevState (state w)]
    /\ subscribers w'
       = subscribers w ++ newcomers (funs w) [prevState; state w] cb
    /\ funs w `prefix_of` funs w'.
Proof.
  intros (u & Hu & Hacts). unfold notify, call, newcomers.
  cbn [funs with_log]. rewrite Hu.
  set (w0 := with_log _ w).
  destruct (run_subscribes native m (effects u [prevState; state w]) w0 (Hacts _))
    as (w1 & -> & Hst1 & Hlog1 & Hobjs1 & Hs1 & Hf1).
  cbn [mbind outcome_bind].
  destruct (result u (objs w1) [prevState; state w]) as [new v].
  cbn [mbind outcome_bind]. eexists. split; [done|]. by cbn.
Qed.

Lemma forEach_from_subscribing (native : bool) (m : nat) (prevState : value)
      (fs0 : list closure) (l added : list fref) (n k : nat) (w : world) :
  subscribers w = l ++ added ->
  fs0 `prefix_of` funs w ->
  Forall (subscribing fs0) l ->
  k + n = length l ->
  exists w',
    forEach_from (notify (exec native (S m)) prevState) n k w = Done w'
    /\ state w' = state w
    /\ subscribers w'
       = l ++ added
           ++ concat (map (newcomers fs0 [prevState; state w]) (drop k l))
    /\ log w' = log w ++ map (fun cb => Notified cb prevState (state w)) (drop k l).
Proof.
  revert k w added. induction n as [|n IH]; intros k w added Hsub Hpre Hall Hlen.
  - exists w. cbn. rewrite drop_ge by lia. cbn. rewrite !app_nil_r. eauto.
  - cbn [forEach_from].
    assert (k < length l) as Hk by lia.
    destruct (lookup_lt_is_Some_2 l k Hk) as [cb Hcb].
    rewrite Hsub, (lookup_app_l_Some _ _ _ _ Hcb).
    assert (subscribing fs0 cb) as Hsc0.
    { eapply Forall_forall; [exact Hall|]. by eapply list_elem_of_lookup_2. }
    assert (subscribing (funs w) cb) as Hsc.
    { eapply (proj1 (Forall_forall _ _) (subscribing_mono fs0 (funs w) [cb] Hpre
                (proj2 (Forall_singleton _ _) Hsc0))). apply list_elem_of_here. }
    destruct (notify_subscribing native m prevState cb w Hsc)
      as (w1 & -> & Hst1 & Hlog1 & Hs1 & Hf1).
    cbn [mbind outcome_bind].
    rewrite (newcomers_mono fs0 (funs w) _ cb Hpre Hsc0) in Hs1.
    destruct (IH (S k) w1 (added ++ newcomers fs0 [prevState; state w] cb))
      as (w' & -> & Hst' & Hsub' & Hlog').
    + by rewrite Hs1, Hsub, <- app_assoc.
    + by etrans.
    + done.
    + lia.
    + exists w'. split_and!; try done.
      * by rewrite Hst'.
      * rewrite Hsub', Hst1. rewrite (drop_S _ _ _ Hcb). cbn.
        by rewrite <- !app_assoc.
      * rewrite Hlog', Hlog1, Hst1. rewrite (drop_S _ _ _ Hcb). cbn.
        by rewrite <- app_assoc.
Qed.

(** X11: an observer subscribed while a [set] notifies is not invoked in
    that pass, and takes nothing away from the others: when the observers
    do nothing to the container but subscribe further observers, [set]
    invokes exactly the observers that were subscribed when it was called,
    each once and in order, and afterwards the list is the previous one
    followed by the newcomers, in the order in which they were
    subscribed. *)
Theorem set_ignores_new_observers (native : bool) (m : nat) (next : value)
        (w : world) (new : list obj) (c : value) :
  candidate w next new c -> ~ SameValue (get w) c ->
  Forall (subscribing (funs w)) (subscribers w) ->
  exists w',
    set native (exec native (S m)) next w = Done w'
    /\ get w' = c
    /\ subscribers w'
       = subscribers w
           ++ concat (map (newcomers (funs w) [get w; c]) (subscribers w))
    /\ log w' = log w ++ Stored c
                  :: map (fun cb => Notified cb (get w) c) (subscribers w).
Proof.
  intros Hc Hs Hall. rewrite (set_step _ _ _ _ _ _ Hc).
  apply (objectIs_false native) in Hs. unfold get in *. rewrite Hs.
  unfold forEach.
  destruct (forEach_from_subscribing native m (state w) (funs w)
              (subscribers w) [] (length (subscribers w)) 0
              (store c (alloc_objs new w)))
    as (w' & Hrun & Hst & Hsub & Hlog).
  - cbn. by rewrite app_nil_r.
  - done.
  - done.
  - lia.
  - cbn [subscribers store alloc_objs] in *. rewrite Hrun.
    exists w'. split_and!; try done. rewrite Hlog. cbn. by rewrite <- app_assoc.
Qed.

(** With [recruit] subscribed before [noop], [set(1)] invokes the two,
    and [noop], which [recruit] subscribed meanwhile, is once more at the
    end of the list. *)
Example set_recruiting_scenario :
  exists w',
    set true (exec true 1) one (recruiting zero) = Done w'
    /\ subscribers w' = [0; 1; 1]
    /\ log w' = [Stored one; Notified 0 zero one; Notified 1 zero one].
Proof. eexists. split_and!; [vm_compute; reflexivity | done..]. Qed.

(** ** An observer that sets the value back *)

Lemma exec_set (native : bool) (n : nat) (next : value) (w : world) :
  exec native (S n) (ASet next) w
  = (w' ← set native (exec native n) next w; Done (VUndefined, w')).
Proof. done. Qed.

Lemma set_reverting (native : bool)
      (rec : action -> world -> outcome (value * world))
      (v c : value) (os : list obj) (l : list event) :
  typeof c <> TFunction -> v <> c ->
  set native rec c (reverting v os l)
  = ('(_, w1) ← rec (ASet v)
                    (reverting c os ((l ++ [Stored c]) ++ [Notified 0 v c]));
     Done (alloc_objs [] w1)).
Proof.
  intros Hc Hne. unfold set.
  assert (match c with
          | VFun f => call rec f [state (reverting v os l)] (reverting v os l)
          | _ => Done (c, reverting v os l)
          end = Done (c, reverting v os l)) as -> by by destruct c.
  cbn [mbind outcome_bind]. change (state (reverting v os l)) with v.
  rewrite (proj2 (objectIs_false native v c)) by done.
  cbn. by destruct (rec _ _) as [[? ?]| |].
Qed.

(** X12: [set] has no guard against observers that call [set]: with an
    observer that sets the container back to the previous value, a [set]
    that changes the value starts a chain of nested calls that does not
    come to an end, whatever depth of nesting is allowed (the host's call
    stack overflows). *)
Theorem set_with_reverting_observer_never_returns (native : bool) (fuel : nat)
        (v c : value) (os : list obj) (l : list event) :
  typeof v <> TFunction -> typeof c <> TFunction -> v <> c ->
  set native (exec native fuel) c (reverting v os l) = Timeout.
Proof.
  revert v c os l. induction fuel as [|fuel IH]; intros v c os l Hv Hc Hne;
    rewrite set_reverting by done; [done|].
  rewrite exec_set, IH; [done..|congruence].
Qed.

(** ** [usePick], composed *)

(** What one run of the observer of binding [i] leaves, for a picker
    without effects. *)
Lemma sub_body_result (native : bool) (n : nat) (w : world) (i : nat)
      (b : binding) (u : ufun) (new : list obj) (pickedNew : value) :
  hooks w !! i = Some b ->
  funs w !! ref_picker b = Some (User u) ->
  effects u [state w] = [] ->
  result u (objs w) [state w] = (new, pickedNew) ->
  sub_body (exec native (S n)) i w
  = Done (VUndefined,
          if shallowEqual (objs w ++ new) (ref_oldState b) pickedNew
          then alloc_objs new w
          else setPickedState i pickedNew (alloc_objs new w)).
Proof.
  intros Hb Hpick He Hr. unfold sub_body. rewrite Hb, exec_call.
  assert (call (exec native n) (ref_picker b) [state w] w
          = Done (pickedNew, alloc_objs new w)) as ->.
  { apply call_candidate. by econstructor. }
  cbn [mbind outcome_bind]. cbn [objs alloc_objs].
  by destruct (shallowEqual _ _ _).
Qed.

(** X13: a change of the projection reaches the component: the render
    that follows a run of the observer returns the new projection when
    the observer found it changed, and otherwise what the state slot held
    before; either way that render takes the returned value as the stored
    projection and leaves nothing queued. *)
Theorem usePick_render_after_observer (native : bool) (n : nat)
        (rec : action -> world -> outcome (value * world)) (w : world) (i : nat)
        (b : binding) (subf picker picker' : fref) (shown : value) (u : ufun)
        (args : list value) (new : list obj) (pickedNew : value) :
  funs w !! subf = Some (PickSub i) ->
  hooks w !! i = Some b ->
  rendered_with picker shown b ->
  funs w !! picker = Some (User u) ->
  effects u [get w] = [] ->
  result u (objs w) [get w] = (new, pickedNew) ->
  exists w1 w2 b2,
    call (exec native (S n)) subf args w = Done (VUndefined, w1)
    /\ usePick rec (Some i) picker' w1
       = Done (i,
               if shallowEqual (objs w ++ new) shown pickedNew
               then slot_value b else pickedNew,
               w2)
    /\ hooks w2 !! i = Some b2
    /\ rendered_with picker'
         (if shallowEqual (objs w ++ new) shown pickedNew
          then slot_value b else pickedNew) b2
    /\ queue b2 = [].
Proof.
  intros Hsub Hb (Hp & Hold & Hst) Hpick He Hr. unfold get in *.
  assert (i < length (hooks w)) as Hi by by eapply lookup_lt_Some.
  unfold call. rewrite Hsub.
  rewrite (sub_body_result native n w i b u new pickedNew); [|by rewrite ?Hp..].
  rewrite Hold. destruct (shallowEqual (objs w ++ new) shown pickedNew).
  - do 3 eexists. split; [done|]. unfold usePick. cbn [hooks alloc_objs].
    rewrite Hb. split; [done|]. cbn [hooks with_hooks].
    rewrite list_lookup_insert_eq by done. by unfold rendered_with.
  - do 3 eexists. split; [done|]. unfold usePick.
    cbn [hooks alloc_objs setPickedState with_hooks].
    rewrite list_lookup_alter, Hb. case_decide; [|done]. cbn [fmap option_fmap option_map].
    assert (slot_value
              (Binding (ref_picker b) (ref_oldState b) (pickedState b)
                       (queue b ++ [pickedNew]) (sub b) (un b)) = pickedNew) as ->.
    { unfold slot_value. cbn. by rewrite last_snoc. }
    split; [done|]. cbn [hooks with_hooks].
    rewrite list_lookup_insert_eq by by rewrite length_alter.
    by unfold rendered_with.
Qed.

Lemma usePick_effects_first rec (i : nat) (d : bool) (w : world) (b : binding) :
  hooks w !! i = Some b ->
  usePick_effects rec i true d w
  = ('(_, w2) ← call rec (sub b) []
                    (World (state w) (subscribers w ++ [sub b]) (objs w)
                           (funs w ++ [UnsubArrow (sub b)])
                           (<[i := Binding (ref_picker b) (ref_oldState b)
                                           (pickedState b) (queue b) (sub b)
                                           (Some (length (funs w)))]> (hooks w))
                           (log w));
     Done w2).
Proof. intros Hb. unfold usePick_effects. by rewrite Hb. Qed.

(** X14: the effects of the first commit subscribe the observer of the
    binding, at the end of the list, and keep the function that
    [subscribe] returned; calling that function (the cleanup at unmount)
    gives back the observer list as it was before the component
    mounted. *)
Theorem usePick_mount_then_cleanup (native : bool) (n : nat) (d : bool)
        (w : world) (i : nat) (b : binding) (u : ufun) :
  hooks w !! i = Some b ->
  funs w !! sub b = Some (PickSub i) ->
  (sub b ∉ subscribers w) ->
  funs w !! ref_picker b = Some (User u) ->
  effects u [get w] = [] ->
  exists w1 unf,
    usePick_effects (exec native (S n)) i true d w = Done w1
    /\ (un <$> hooks w1 !! i) = Some (Some unf)
    /\ subscribers w1 = subscribers w ++ [sub b]
    /\ get w1 = get w
    /\ exists w2,
        call (exec native (S n)) unf [] w1 = Done (VUndefined, w2)
        /\ subscribers w2 = subscribers w.
Proof.
  intros Hb Hsub Hfresh Hpick He. unfold get in *.
  assert (i < length (hooks w)) as Hi by by eapply lookup_lt_Some.
  rewrite (usePick_effects_first _ i d w b Hb).
  set (b' := Binding _ _ _ _ _ (Some (length (funs w)))).
  set (w0 := World _ _ _ _ _ _).
  assert (hooks w0 !! i = Some b') as Hb'.
  { subst w0. cbn. by rewrite list_lookup_insert_eq. }
  unfold call at 1.
  assert (funs w0 !! sub b = Some (PickSub i)) as -> by
      (subst w0; cbn; by apply lookup_app_l_Some).
  destruct (result u (objs w0) [state w0]) as [new pickedNew] eqn:Hr.
  rewrite (sub_body_result native n w0 i b' u new pickedNew);
    [|done|subst w0 b'; cbn; by apply lookup_app_l_Some|done|done].
  cbn [mbind outcome_bind].
  set (w1 := if shallowEqual _ _ _ then _ else _).
  assert (subscribers w1 = subscribers w ++ [sub b]
          /\ state w1 = state w
          /\ funs w1 = funs w ++ [UnsubArrow (sub b)]
          /\ (un <$> hooks w1 !! i) = Some (Some (length (funs w))))
    as (Hs1 & Hst1 & Hf1 & Hun1).
  { subst w1. destruct (shallowEqual _ _ _); cbn; split_and!; try done.
    - by rewrite list_lookup_insert_eq.
    - rewrite list_lookup_alter. case_decide; [|done].
      by rewrite list_lookup_insert_eq. }
  exists w1, (length (funs w)). split_and!; try done.
  unfold call. rewrite Hf1, lookup_app_r by done. rewrite Nat.sub_diag. cbn.
  eexists. split; [done|].
  rewrite (unsubscribe_first (sub b) w1 (subscribers w) []); [|done..].
  cbn. by rewrite app_nil_r.
Qed.


(** ** Instances of the further properties *)


Lemma set_literal_twice_witness :
  exists w1,
    set true (exec true 1) one (one_observer zero []) = Done w1
    /\ get w1 = one
    /\ set true (exec true 1) one w1 = Done w1.
Proof.
  apply (set_literal_twice true (exec true 1) one (one_observer zero [])).
  - discriminate.
  - apply one_observer_quiet.
Defined.


Lemma update_without_change_witness :
  exists w',
    update true (exec true 1) VUndefined (one_observer (VObj 0) [obj_a1]) = Done w'
    /\ objs w' !! 1 = Some obj_a1
    /\ get w' = VObj 1
    /\ is_ (VObj 0) (get w') = false
    /\ shallowEqual (objs w') (VObj 0) (get w') = true
    /\ log w' = Stored (get w') :: map (fun cb => Notified cb (VObj 0) (get w')) [0].
Proof.
  apply (update_without_change true (exec true 1) VUndefined
           (one_observer (VObj 0) [obj_a1]) 0 obj_a1).
  - reflexivity.
  - reflexivity.
  - apply map_empty_subseteq.
  - apply one_observer_quiet.
Defined.

Lemma recruiting_subscribing (v : value) :
  Forall (subscribing (funs (recruiting v))) (subscribers (recruiting v)).
Proof.
  apply Forall_cons. split.
  - exists recruit. split; [reflexivity|]. intros args.
    apply Forall_singleton. by exists 1.
  - apply Forall_singleton. exists noop. split; [reflexivity|].
    intros args. apply Forall_nil_2.
Defined.

Lemma set_ignores_new_observers_witness :
  exists w',
    set true (exec true 1) one (recruiting zero) = Done w'
    /\ get w' = one
    /\ subscribers w'
       = subscribers (recruiting zero)
           ++ concat (map (newcomers (funs (recruiting zero))
                                     [get (recruiting zero); one])
                          (subscribers (recruiting zero)))
    /\ log w' = log (recruiting zero)
                ++ Stored one
                   :: map (fun cb => Notified cb (get (recruiting zero)) one)
                          (subscribers (recruiting zero)).
Proof.
  apply (set_ignores_new_observers true 0 one (recruiting zero) [] one).
  - by constructor.
  - discriminate.
  - apply recruiting_subscribing.
Defined.

Lemma set_with_reverting_observer_never_returns_witness :
  set true (exec true 5) one (reverting zero [] []) = Timeout.
Proof.
  apply (set_with_reverting_observer_never_returns true 5 zero one [] []);
    discriminate.
Defined.

Lemma usePick_render_after_observer_witness :
  exists w1 w2 b2,
    call (exec true 1) 1 [zero; one] (picking one []) = Done (VUndefined, w1)
    /\ usePick (exec true 1) (Some 0) 0 w1
       = Done (0,
               if shallowEqual (objs (picking one []) ++ []) zero one
               then slot_value (Binding 0 zero zero [] 1 None) else one,
               w2)
    /\ hooks w2 !! 0 = Some b2
    /\ rendered_with 0
         (if shallowEqual (objs (picking one []) ++ []) zero one
          then slot_value (Binding 0 zero zero [] 1 None) else one) b2
    /\ queue b2 = [].
Proof.
  apply (usePick_render_after_observer true 0 (exec true 1) (picking one []) 0
           (Binding 0 zero zero [] 1 None) 1 0 0 zero identity [zero; one] [] one);
    try reflexivity.
  repeat split; reflexivity.
Defined.

Lemma usePick_mount_then_cleanup_witness :
  exists w1 unf,
    usePick_effects (exec true 1) 0 true false (rendered_once one) = Done w1
    /\ (un <$> hooks w1 !! 0) = Some (Some unf)
    /\ subscribers w1 = subscribers (rendered_once one) ++ [1]
    /\ get w1 = get (rendered_once one)
    /\ exists w2,
        call (exec true 1) unf [] w1 = Done (VUndefined, w2)
        /\ subscribers w2 = subscribers (rendered_once one).
Proof.
  apply (usePick_mount_then_cleanup true 0 false (rendered_once one) 0
           (Binding 0 zero zero [] 1 None) identity); try reflexivity.
  apply not_elem_of_nil.
Defined.

Lemma picking_well_formed (v : value) (q : list value) : well_formed (picking v q).
Proof.
  split; cbn.
  - apply Forall_singleton. lia.
  - apply Forall_cons. split; [intros args; apply Forall_nil_2|].
    apply Forall_singleton. cbn. lia.
  - apply Forall_singleton. cbn. lia.
Defined.

